(** * Character input stream of the 8cc C compiler (file.c)

    A shallow embedding of [file.c]: the stack of input units ([files]), the
    raw reader [get] with its newline canonicalisation and end-of-file
    regularisation, the line-splicing reader [readc], the pushback operation
    [unreadc] and the position report [input_position]. *)

From Stdlib Require Import String Ascii ZArith List Bool Lia.
From Stdlib Require Import Strings.Byte.
From Stdlib Require Import DecimalString DecimalZ.
Import ListNotations.
Local Open Scope Z_scope.

(** ** Characters *)

(** Characters travel through the reader as C [int]s, here [Z]. *)
Definition EOF : Z := -1.
Definition NL : Z := 10.         (* '\n' *)
Definition CR : Z := 13.         (* '\r' *)
Definition BACKSLASH : Z := 92.  (* '\\' *)

(** The [int] value of an ASCII character constant. *)
Definition chr (a : ascii) : Z := Z.of_nat (nat_of_ascii a).

(** [line] and [column] are C [int]s; [++] and [--] on them are rendered
    with 32-bit two's complement wrap-around. *)
Definition wrap_int (z : Z) : Z := (z + 2 ^ 31) mod 2 ^ 32 - 2 ^ 31.
Definition int_range (z : Z) : Prop := - 2 ^ 31 <= z < 2 ^ 31.

(** ** stdio streams

    A [FILE *] opened for reading is the list of bytes not yet consumed.
    [getc] yields the next byte as an [unsigned char] converted to [int], or
    [EOF]; [ungetc] puts one byte back, and does nothing for [EOF]. *)
Definition FILE := list byte.

Definition byte_val (b : byte) : Z := Z.of_N (Byte.to_N b).

Definition byte_of_int (c : Z) : byte :=
  match Byte.of_N (Z.to_N (c mod 256)) with
  | Some b => b
  | None => x00
  end.

Definition getc (s : FILE) : Z * FILE :=
  match s with
  | [] => (EOF, [])
  | b :: r => (byte_val b, r)
  end.

Definition ungetc (c : Z) (s : FILE) : FILE :=
  if c =? EOF then s else byte_of_int c :: s.

(** ** The [File] structure

    [file] is [None] for a null [FILE *].  [p] is the C string still to be
    read, as the list of the [char] values [*p], [p[1]], ...; the end of the
    list stands for the terminating NUL, and an element [0] is a NUL as well.
    Whether a byte above 0x7f is a negative [char] depends on the C
    implementation, so the list may hold any value, [-1] included.
    [name] is [None] for a null pointer.  [buf] holds the live part
    [buf[0 .. buflen)] of the pushback array, most recently unread character
    first, so that [buflen] is its length. *)
Record File := mkFile {
  file : option FILE;
  p : list Z;
  name : option string;
  line : Z;
  column : Z;
  last : Z;
  buf : list Z;
  autopop : bool
}.

Definition buflen (f : File) : nat := length (buf f).

Definition set_file (s : FILE) (f : File) : File :=
  mkFile (Some s) (p f) (name f) (line f) (column f) (last f) (buf f)
    (autopop f).
Definition set_p (s : list Z) (f : File) : File :=
  mkFile (file f) s (name f) (line f) (column f) (last f) (buf f) (autopop f).
Definition set_line (n : Z) (f : File) : File :=
  mkFile (file f) (p f) (name f) n (column f) (last f) (buf f) (autopop f).
Definition set_column (n : Z) (f : File) : File :=
  mkFile (file f) (p f) (name f) (line f) n (last f) (buf f) (autopop f).
Definition set_last (c : Z) (f : File) : File :=
  mkFile (file f) (p f) (name f) (line f) (column f) c (buf f) (autopop f).
Definition set_buf (b : list Z) (f : File) : File :=
  mkFile (file f) (p f) (name f) (line f) (column f) (last f) b (autopop f).

(** [calloc] zeroes every field that [make_file] and [make_file_string] do
    not assign. *)
Definition make_file (s : FILE) (nm : option string) (ap : bool) : File :=
  mkFile (Some s) [] nm 1 0 0 [] ap.

Definition make_file_string (s : list Z) (ap : bool) : File :=
  mkFile None s None 1 0 0 [] ap.

(** ** Outcomes and the state monad over the stack of units *)

(** A call either returns, stops on a failed [assert], or (for the loops
    below, which are run with a step budget) exhausts its budget. *)
Inductive res (A : Type) : Type :=
| Ok (a : A)
| Abort
| Timeout.
Arguments Ok {A} a.
Arguments Abort {A}.
Arguments Timeout {A}.

(** The global [files] vector; the head of the list is the tail of the
    vector, that is the unit being read. *)
Definition Vector := list File.

Definition M (A : Type) : Type := Vector -> res (A * Vector).

Definition ret {A} (a : A) : M A := fun fs => Ok (a, fs).

Definition bind {A B} (m : M A) (k : A -> M B) : M B :=
  fun fs =>
    match m fs with
    | Ok (a, fs1) => k a fs1
    | Abort => Abort
    | Timeout => Timeout
    end.

Notation "x <- m ;; k" := (bind m (fun x => k))
  (at level 61, m at next level, right associativity).
Notation "m ;;; k" := (bind m (fun _ => k))
  (at level 61, right associativity).

Definition assert (b : bool) : M unit :=
  fun fs => if b then Ok (tt, fs) else Abort.

(** Modelled from the spec: the vector primitives of vector.c, which is not
    part of this file.  The spec describes them as push, pop, peek-top and
    depth of a growable stack, where pop and peek-top fail on an empty
    stack. *)
Definition vec_push (f : File) : M unit := fun fs => Ok (tt, f :: fs).

Definition vec_pop : M File :=
  fun fs => match fs with [] => Abort | f :: rest => Ok (f, rest) end.

Definition vec_tail : M File :=
  fun fs => match fs with [] => Abort | f :: _ => Ok (f, fs) end.

Definition vec_len (fs : Vector) : nat := length fs.

(** Assignments through the pointer returned by [vec_tail] update the unit
    on top of the stack. *)
Definition store (f : File) : M unit :=
  fun fs => match fs with [] => Abort | _ :: rest => Ok (tt, f :: rest) end.

(** ** Raw readers *)

Definition at_eof (f : File) : Z :=
  if (last f =? NL) || (last f =? EOF) then EOF else NL.

Definition readc_file (s : FILE) (f : File) : Z * File :=
  let (c, s1) := getc s in
  if c =? EOF then
    let c' := at_eof f in
    (c', set_last c' (set_file s1 f))
  else if c =? CR then
    let (c2, s2) := getc s1 in
    let s3 := if negb (c2 =? NL) then ungetc c2 s2 else s2 in
    (NL, set_last NL (set_file s3 f))
  else
    (c, set_last c (set_file s1 f)).

Definition readc_string (f : File) : Z * File :=
  match p f with
  | [] => let c := at_eof f in (c, set_last c f)
  | c :: r =>
      if c =? 0 then
        let c' := at_eof f in (c', set_last c' f)
      else if c =? CR then
        match r with
        | c2 :: r' =>
            if c2 =? NL then (NL, set_last NL (set_p r' f))
            else (NL, set_last NL (set_p r f))
        | [] => (NL, set_last NL (set_p r f))
        end
      else
        (c, set_last c (set_p r f))
  end.

(** The first half of [get]: the next character of a unit, from the pushback
    array if it holds one, else from the backing stream. *)
Definition fetch (f : File) : Z * File :=
  match buf f with
  | c :: b => (c, set_buf b f)
  | [] =>
      match file f with
      | Some s => readc_file s f
      | None => readc_string f
      end
  end.

(** The second half of [get]: the position update. *)
Definition advance (c : Z) (f : File) : File :=
  if c =? NL then set_column 0 (set_line (wrap_int (line f + 1)) f)
  else set_column (wrap_int (column f + 1)) f.

Definition get : M Z :=
  f <- vec_tail ;;
  let (c, f1) := fetch f in
  store (advance c f1) ;;;
  ret c.

(** The position update of [unreadc]. *)
Definition retreat (c : Z) (f : File) : File :=
  if c =? NL then set_line (wrap_int (line f - 1)) (set_column 0 f)
  else set_column (wrap_int (column f - 1)) f.

Section Stream.

(** The number of elements of [buf], declared in 8cc.h. *)
Variable BUFCAP : nat.

Definition unreadc (c : Z) : M unit :=
  if c <? 0 then ret tt
  else
    f <- vec_tail ;;
    assert (buflen f <? BUFCAP)%nat ;;;
    store (retreat c (set_buf (c :: buf f) f)).

(** The [for (;;)] loop of [readc], run for at most [n] iterations. *)
Fixpoint readc_loop (n : nat) : M Z :=
  match n with
  | O => fun _ => Timeout
  | S n' =>
      c <- get ;;
      if c =? EOF then
        f <- vec_tail ;;
        if autopop f then vec_pop ;;; readc_loop n'
        else ret c
      else if negb (c =? BACKSLASH) then ret c
      else
        c2 <- get ;;
        if c2 =? NL then readc_loop n'
        else unreadc c2 ;;; ret c
  end.

(** Every iteration that does not return removes a unit or consumes a
    character of the top unit, so [weight] bounds the number of
    iterations. *)
Definition src_len (f : File) : nat :=
  match file f with
  | Some s => length s
  | None => length (p f)
  end.

Definition weight1 (f : File) : nat := S (buflen f + src_len f).

Definition weight (fs : Vector) : nat := list_sum (map weight1 fs).

Definition readc : M Z := fun fs => readc_loop (S (weight fs)) fs.

End Stream.

Definition current_file : M File := vec_tail.

Definition insert_stream (s : FILE) (nm : option string) : M unit :=
  vec_push (make_file s nm true).

Definition push_stream (s : FILE) (nm : option string) : M unit :=
  vec_push (make_file s nm false).

Definition push_stream_string (s : list Z) : M unit :=
  vec_push (make_file_string s false).

Definition pop_stream : M unit := vec_pop ;;; ret tt.

Definition stream_depth (fs : Vector) : nat := vec_len fs.

(** Modelled from the spec: [format], a printf-style helper that is not part
    of this file, applied to ["%s:%d:%d"]: the name, the line and the column
    in decimal, separated by colons.  A null name is shown the way the GNU C
    library prints a null [%s] argument. *)
Definition show_name (nm : option string) : string :=
  match nm with
  | Some s => s
  | None => "(null)"
  end.

Definition show_int (z : Z) : string := NilZero.string_of_int (Z.to_int z).

Definition format_position (nm : option string) (l c : Z) : string :=
  (show_name nm ++ ":" ++ show_int l ++ ":" ++ show_int c)%string.

Definition input_position : M string :=
  fun fs =>
    if (vec_len fs =? 0)%nat then ret "(unknown)"%string fs
    else
      (f <- vec_tail ;;
       ret (format_position (name f) (line f) (column f))) fs.

(** ** Reading to exhaustion

    The driver used to state what a unit delivers: call [readc] until it
    returns [EOF] and collect the characters returned before. *)
Section Drain.

Variable BUFCAP : nat.

Fixpoint read_all_loop (n : nat) : M (list Z) :=
  match n with
  | O => fun _ => Timeout
  | S n' =>
      c <- readc BUFCAP ;;
      if c =? EOF then ret []
      else
        cs <- read_all_loop n' ;;
        ret (c :: cs)
  end.

(** [n] successive calls of [readc], and the calls [unreadc] of a list of
    characters in the order of the list. *)
Fixpoint readn (n : nat) : M (list Z) :=
  match n with
  | O => ret []
  | S n' =>
      c <- readc BUFCAP ;;
      cs <- readn n' ;;
      ret (c :: cs)
  end.

Fixpoint unread_list (cs : list Z) : M unit :=
  match cs with
  | [] => ret tt
  | c :: cs' => unreadc BUFCAP c ;;; unread_list cs'
  end.

End Drain.

(** [n] successive calls of [get]. *)
Fixpoint getn (n : nat) : M (list Z) :=
  match n with
  | O => ret []
  | S n' =>
      c <- get ;;
      cs <- getn n' ;;
      ret (c :: cs)
  end.

(** [last] tells whether the unit still owes a newline before its [EOF]. *)
Definition owes_newline (f : File) : nat :=
  if (last f =? NL) || (last f =? EOF) then 0%nat else 1%nat.

(** Every call of [readc] that returns a character lowers [measure]. *)
Definition measure (fs : Vector) : nat :=
  match fs with
  | [] => 0%nat
  | f :: _ => (3 * weight fs + owes_newline f)%nat
  end.

Definition read_all (BUFCAP : nat) : M (list Z) :=
  fun fs => read_all_loop BUFCAP (S (measure fs)) fs.

(** The characters delivered by a string-backed unit alone on the stack. *)
Definition chars {A} (r : res (A * Vector)) : res A :=
  match r with
  | Ok (a, _) => Ok a
  | Abort => Abort
  | Timeout => Timeout
  end.

Definition read_string (BUFCAP : nat) (s : list Z) : res (list Z) :=
  chars ((push_stream_string s ;;; read_all BUFCAP) []).

(** ** Reference notions used in the statements *)

(** Following the spec's words: every "\r\n" pair and every remaining lone
    '\r' replaced by '\n'. *)
Fixpoint crlf (s : list Z) : list Z :=
  match s with
  | [] => []
  | c :: r =>
      if c =? CR then
        match r with
        | c2 :: r' => if c2 =? NL then NL :: crlf r' else NL :: crlf r
        | [] => [NL]
        end
      else c :: crlf r
  end.

(** A unit is exhausted when [get] has nothing left to deliver but [EOF]:
    the pushback array is empty, the backing stream is at its end, and the
    last character delivered was a newline or [EOF]. *)
Definition at_end (f : File) : bool :=
  match file f with
  | Some s => match s with [] => true | _ => false end
  | None => match p f with [] => true | c :: _ => c =? 0 end
  end.

Definition exhausted (f : File) : bool :=
  match buf f with
  | [] => at_end f && ((last f =? NL) || (last f =? EOF))
  | _ => false
  end.

(** Units whose pushback array and string hold character values only, none
    of them negative. *)
Definition nonneg (c : Z) : Prop := 0 <= c.

Definition wf_file (f : File) : Prop :=
  Forall nonneg (buf f) /\ Forall nonneg (p f).

Definition wf (fs : Vector) : Prop := Forall wf_file fs.

(** Units whose [line] and [column] hold [int] values. *)
Definition ints (fs : Vector) : Prop :=
  Forall (fun f => int_range (line f) /\ int_range (column f)) fs.

(** No backslash of the list is immediately followed by a newline. *)
Fixpoint splice_free (cs : list Z) : bool :=
  match cs with
  | c :: (c2 :: _) as r =>
      negb ((c =? BACKSLASH) && (c2 =? NL)) && splice_free r
  | _ => true
  end.

(** ** Notions used in the proofs *)

(** One call of [get] on the top unit: the character and the unit after. *)
Definition getf (f : File) : Z * File :=
  (fst (fetch f), advance (fst (fetch f)) (snd (fetch f))).

(** The share of the top unit in [measure]. *)
Definition measure1 (f : File) : nat := (3 * weight1 f + owes_newline f)%nat.

(** At most one character is pushed back, as between two calls of [readc]
    when nothing else is unread. *)
Definition tidy (f : File) : Prop := (buflen f <= 1)%nat.

(** The call returned, with a tidy unit that is not popped automatically on
    top of [rest]. *)
Definition stays (rest : Vector) (r : res (Z * Vector)) : Prop :=
  match r with
  | Ok (_, fs') =>
      exists f', fs' = f' :: rest /\ tidy f' /\ autopop f' = false
  | Abort => False
  | Timeout => True
  end.

(** Two stacks are alike when they are equal, or differ in their top units
    only, and these are related by [R]; two outcomes are alike when they
    return the same value and leave alike stacks. *)
Definition alike (R : File -> File -> Prop) (fs gs : Vector) : Prop :=
  fs = gs \/ exists f g rest, fs = f :: rest /\ gs = g :: rest /\ R f g.

Definition sim (R : File -> File -> Prop) {A} (r1 r2 : res (A * Vector)) :
  Prop :=
  match r1, r2 with
  | Ok (a, fs), Ok (b, gs) => a = b /\ alike R fs gs
  | Abort, Abort => True
  | Timeout, Timeout => True
  | _, _ => False
  end.

(** [g] is [f] with its string canonicalised beforehand. *)
Definition crlf_rel (f g : File) : Prop := g = set_p (crlf (p f)) f.

(** The unit has not just delivered a newline or [EOF] when its string
    runs out: the string left does not end in one, or is empty after a
    character other than these. *)
Definition ends_open (f : File) : Prop :=
  match p f with
  | [] => last f <> NL /\ last f <> EOF
  | _ => List.last (p f) 0 <> NL /\ List.last (p f) 0 <> EOF
  end.

(** [g] is [f] with a newline appended to a string that [ends_open], or
    [f] itself once that newline has been delivered. *)
Definition eofreg_rel (f g : File) : Prop :=
  f = g \/ (g = set_p (p f ++ [NL]) f /\ file f = None /\ ends_open f).

(** Characters that [readc] hands over as they are, or as a newline for a
    carriage return. *)
Definition plain (c : Z) : Prop := c <> 0 /\ c <> EOF /\ c <> BACKSLASH.

(** A string-backed unit with nothing pushed back, not popped
    automatically. *)
Definition sunit (s : list Z) (nm : option string) (l c lst : Z) : File :=
  mkFile None s nm l c lst [] false.

(** A unit without its position. *)
Definition unplace (f : File) : File := set_line 0 (set_column 0 f).

Definition pos_rel (f g : File) : Prop := unplace f = unplace g.

(** Stacks that differ in the position of the top unit only. *)
Definition same_input (fs gs : Vector) : Prop := alike pos_rel fs gs.

(** The character that the next [get] delivers is not a newline and can be
    pushed back again: what [readc] needs to know to return a backslash. *)
Definition peek_ok (cap : nat) (fs : Vector) : Prop :=
  exists c2 fs2 fs3,
    get fs = Ok (c2, fs2) /\ c2 <> NL /\
    unreadc cap c2 fs2 = Ok (tt, fs3) /\ same_input fs3 fs.

(** The position counters going forth and back. *)
Definition inc (x : Z) : Z := wrap_int (x + 1).
Definition dec (x : Z) : Z := wrap_int (x - 1).

(** C1 as the spec states it: after any [n] reads, [n] not above the
    capacity of [buf], the characters read can be unread in reverse order,
    are then read again as they were, and [input_position] after the unreads
    is [input_position] before the reads. *)
Definition roundtrip_claim (cap : nat) : Prop :=
  forall fs n cs fs1,
    (n <= cap)%nat ->
    readn cap n fs = Ok (cs, fs1) ->
    exists fs2,
      unread_list cap (rev cs) fs1 = Ok (tt, fs2) /\
      chars (readn cap n fs2) = Ok cs /\
      chars (input_position fs2) = chars (input_position fs).

(** ** What a unit has yet to deliver *)

(** A C string up to its terminating NUL. *)
Fixpoint until_nul (s : list Z) : list Z :=
  match s with
  | [] => []
  | c :: r => if c =? 0 then [] else c :: until_nul r
  end.

(** The characters of the backing stream of a unit that are still unread. *)
Definition source (f : File) : list Z :=
  match file f with
  | Some s => map byte_val s
  | None => until_nul (p f)
  end.

(** A text completed by a newline unless it ends in one; for the empty text
    [lst], the last character delivered before, decides. *)
Definition closing (lst : Z) (t : list Z) : list Z :=
  match t with
  | [] => if (lst =? NL) || (lst =? EOF) then [] else [NL]
  | _ => if List.last t 0 =? NL then t else t ++ [NL]
  end.

(** The characters that successive calls of [get] will deliver from a unit
    before its [EOF]. *)
Definition pending (f : File) : list Z :=
  buf f ++ closing (last f) (crlf (source f)).

(** Removal of every backslash immediately followed by a newline, from left
    to right. *)
Fixpoint splice (cs : list Z) : list Z :=
  match cs with
  | [] => []
  | c :: r =>
      match r with
      | c2 :: r' =>
          if (c =? BACKSLASH) && (c2 =? NL) then splice r' else c :: splice r
      | [] => [c]
      end
  end.

(** Characters put in front of the characters of an outcome. *)
Definition prepend (l : list Z) (r : res (list Z)) : res (list Z) :=
  match r with
  | Ok cs => Ok (l ++ cs)
  | Abort => Abort
  | Timeout => Timeout
  end.

(** What remains to be read from a stack whose top unit is [f]. *)
Definition remaining (BUFCAP : nat) (f : File) (rest : Vector) :
  res (list Z) :=
  if autopop f
  then prepend (splice (pending f)) (chars (read_all BUFCAP rest))
  else Ok (splice (pending f)).

(** The characters delivered by a file-backed unit alone on the stack. *)
Definition read_file (BUFCAP : nat) (s : FILE) (nm : option string) :
  res (list Z) :=
  chars ((push_stream s nm ;;; read_all BUFCAP) []).

(** Every unit holds at most as many pushed-back characters as [buf] has
    elements. *)
Definition bounded (cap : nat) (fs : Vector) : Prop :=
  Forall (fun f => (buflen f <= cap)%nat) fs.

(** No carriage return is pushed back in any unit. *)
Definition no_cr (fs : Vector) : Prop :=
  Forall (fun f => ~ In CR (buf f)) fs.

(** Every unit is popped automatically; some unit is not. *)
Definition all_autopop (fs : Vector) : Prop :=
  Forall (fun f => autopop f = true) fs.

Definition some_kept (fs : Vector) : Prop :=
  Exists (fun f => autopop f = false) fs.

(** The number of characters before the first newline of a list, and the
    number of its newlines. *)
Fixpoint before_nl (cs : list Z) : nat :=
  match cs with
  | [] => 0%nat
  | c :: r => if c =? NL then 0%nat else S (before_nl r)
  end.

Fixpoint newlines (cs : list Z) : nat :=
  match cs with
  | [] => 0%nat
  | c :: r => if c =? NL then S (newlines r) else newlines r
  end.

(** * Properties *)

(** ** Unfolding the monadic definitions on a non-empty stack *)

Ltac zbool :=
  repeat match goal with
  | H : (_ =? _) = true |- _ => apply Z.eqb_eq in H
  | H : (_ =? _) = false |- _ => apply Z.eqb_neq in H
  | H : (_ <? _) = true |- _ => apply Z.ltb_lt in H
  | H : (_ <? _) = false |- _ => apply Z.ltb_ge in H
  | H : (_ || _)%bool = true |- _ => apply orb_true_iff in H
  | H : (_ || _)%bool = false |- _ => apply orb_false_iff in H; destruct H
  | H : (_ && _)%bool = true |- _ => apply andb_true_iff in H; destruct H
  | H : negb _ = true |- _ => apply negb_true_iff in H
  | H : negb _ = false |- _ => apply negb_false_iff in H
  end.

Lemma get_nil : get [] = Abort.
Proof. reflexivity. Qed.

Lemma get_cons f rest :
  get (f :: rest) = Ok (fst (getf f), snd (getf f) :: rest).
Proof.
  unfold get, getf, bind, vec_tail, store, ret.
  destruct (fetch f) as [c f1]; reflexivity.
Qed.

Lemma unreadc_neg cap c fs : c < 0 -> unreadc cap c fs = Ok (tt, fs).
Proof.
  intros Hc. unfold unreadc.
  destruct (c <? 0) eqn:E; [reflexivity | zbool; lia].
Qed.

Lemma unreadc_cons cap c f rest :
  0 <= c ->
  unreadc cap c (f :: rest) =
  if (buflen f <? cap)%nat
  then Ok (tt, retreat c (set_buf (c :: buf f) f) :: rest)
  else Abort.
Proof.
  intros Hc. unfold unreadc.
  destruct (c <? 0) eqn:E; [zbool; lia |].
  unfold bind, vec_tail, assert, store.
  destruct (buflen f <? cap)%nat; reflexivity.
Qed.

Lemma autopop_set_buf b f : autopop (set_buf b f) = autopop f.
Proof. reflexivity. Qed.

Lemma autopop_advance c f : autopop (advance c f) = autopop f.
Proof. unfold advance; destruct (c =? NL); reflexivity. Qed.

Lemma autopop_retreat c f : autopop (retreat c f) = autopop f.
Proof. unfold retreat; destruct (c =? NL); reflexivity. Qed.

Lemma autopop_readc_file s f : autopop (snd (readc_file s f)) = autopop f.
Proof.
  unfold readc_file. destruct (getc s) as [c s1].
  destruct (c =? EOF); [reflexivity |].
  destruct (c =? CR); [| reflexivity].
  destruct (getc s1); reflexivity.
Qed.

Lemma autopop_readc_string f : autopop (snd (readc_string f)) = autopop f.
Proof.
  unfold readc_string. destruct (p f) as [| c r]; [reflexivity |].
  destruct (c =? 0); [reflexivity |].
  destruct (c =? CR); [| reflexivity].
  destruct r as [| c2 r']; [reflexivity |].
  destruct (c2 =? NL); reflexivity.
Qed.

Lemma autopop_fetch f : autopop (snd (fetch f)) = autopop f.
Proof.
  unfold fetch. destruct (buf f); [| reflexivity].
  destruct (file f); [apply autopop_readc_file | apply autopop_readc_string].
Qed.

Lemma autopop_getf f : autopop (snd (getf f)) = autopop f.
Proof. unfold getf; simpl. rewrite autopop_advance. apply autopop_fetch. Qed.

(** The body of the loop of [readc], on a non-empty stack. *)
Lemma readc_loop_cons cap n f rest :
  readc_loop cap (S n) (f :: rest) =
  let (c, f1) := getf f in
  if c =? EOF then
    if autopop f then readc_loop cap n rest else Ok (c, f1 :: rest)
  else if negb (c =? BACKSLASH) then Ok (c, f1 :: rest)
  else
    let (c2, f2) := getf f1 in
    if c2 =? NL then readc_loop cap n (f2 :: rest)
    else
      match unreadc cap c2 (f2 :: rest) with
      | Ok (_, fs3) => Ok (c, fs3)
      | Abort => Abort
      | Timeout => Timeout
      end.
Proof.
  cbn [readc_loop]. unfold bind at 1. rewrite get_cons.
  pose proof (autopop_getf f) as Hap.
  destruct (getf f) as [c f1]; cbn [fst snd] in *.
  destruct (c =? EOF).
  - unfold bind, vec_tail, vec_pop, ret. rewrite Hap.
    destruct (autopop f); reflexivity.
  - destruct (negb (c =? BACKSLASH)); [reflexivity |].
    unfold bind at 1. rewrite get_cons.
    destruct (getf f1) as [c2 f2]; cbn [fst snd].
    destruct (c2 =? NL); [reflexivity |].
    unfold bind, ret. destruct (unreadc cap c2 (f2 :: rest)) as [[[] fs3] | |];
      reflexivity.
Qed.

Lemma readc_loop_nil cap n : readc_loop cap (S n) [] = Abort.
Proof. reflexivity. Qed.

(** ** Termination of the loop of [readc] *)

Lemma byte_val_range b : 0 <= byte_val b <= 255.
Proof.
  unfold byte_val. pose proof (Byte.to_N_bounded b). lia.
Qed.

Lemma byte_of_int_val b : byte_of_int (byte_val b) = b.
Proof.
  unfold byte_of_int. pose proof (byte_val_range b) as H.
  rewrite Z.mod_small by lia. unfold byte_val.
  rewrite N2Z.id, Byte.of_to_N. reflexivity.
Qed.

Lemma owes_newline_le f : (owes_newline f <= 1)%nat.
Proof. unfold owes_newline; destruct (_ || _)%bool; lia. Qed.

Lemma owes_set_last_at_eof f g :
  last g = at_eof f -> owes_newline g = 0%nat.
Proof.
  unfold owes_newline, at_eof. intros ->.
  destruct ((last f =? NL) || (last f =? EOF))%bool; reflexivity.
Qed.

Lemma at_eof_cases f :
  (at_eof f = EOF /\ owes_newline f = 0%nat) \/
  (at_eof f = NL /\ owes_newline f = 1%nat).
Proof.
  unfold at_eof, owes_newline.
  destruct ((last f =? NL) || (last f =? EOF))%bool; auto.
Qed.

Ltac break_all :=
  repeat (match goal with
  | |- context [if ?b then _ else _] =>
      let E := fresh "E" in destruct b eqn:E; simpl in *
  end).

Ltac split_or :=
  repeat match goal with H : _ \/ _ |- _ => destruct H end.

(** What one [fetch] costs: nothing is ever gained, a character other than
    a newline and [EOF] is paid for with a pushed-back or source character,
    and a newline at least with the owed newline. *)
Lemma fetch_cost f :
  let c := fst (fetch f) in
  let f1 := snd (fetch f) in
  (weight1 f1 <= weight1 f)%nat /\
  (c <> EOF -> c <> NL -> weight1 f1 < weight1 f)%nat /\
  (measure1 f1 <= measure1 f)%nat /\
  (c <> EOF -> measure1 f1 + 1 <= measure1 f)%nat /\
  (c <> EOF -> c <> NL -> measure1 f1 + 2 <= measure1 f)%nat.
Proof.
  destruct f as [fl pp nm ln col lst bf ap].
  unfold measure1, weight1, buflen, src_len, owes_newline, fetch, readc_file,
    readc_string, at_eof, getc, ungetc.
  simpl.
  destruct bf as [| c0 bf]; [destruct fl as [[| b0 [| b1 s]] |];
    [ | | | destruct pp as [| c [| c2 r]]] |];
  simpl;
  try pose proof (byte_val_range b0); try pose proof (byte_val_range b1);
  break_all; zbool; split_or; zbool; unfold EOF, NL, CR in *;
  simpl; repeat split; intros; try lia.
Qed.

Lemma weight1_advance c f : weight1 (advance c f) = weight1 f.
Proof. unfold advance; destruct (c =? NL); reflexivity. Qed.

Lemma measure1_advance c f : measure1 (advance c f) = measure1 f.
Proof. unfold advance; destruct (c =? NL); reflexivity. Qed.

Lemma getf_cost f :
  let c := fst (getf f) in
  let f1 := snd (getf f) in
  (weight1 f1 <= weight1 f)%nat /\
  (c <> EOF -> c <> NL -> weight1 f1 < weight1 f)%nat /\
  (measure1 f1 <= measure1 f)%nat /\
  (c <> EOF -> measure1 f1 + 1 <= measure1 f)%nat /\
  (c <> EOF -> c <> NL -> measure1 f1 + 2 <= measure1 f)%nat.
Proof.
  unfold getf; cbn [fst snd].
  rewrite weight1_advance, measure1_advance. apply fetch_cost.
Qed.

Lemma weight_cons f rest : weight (f :: rest) = (weight1 f + weight rest)%nat.
Proof. reflexivity. Qed.

Lemma weight1_pos f : (0 < weight1 f)%nat.
Proof. unfold weight1; lia. Qed.

Lemma measure_cons f rest :
  measure (f :: rest) = (measure1 f + 3 * weight rest)%nat.
Proof. unfold measure, measure1. rewrite weight_cons. lia. Qed.

Lemma measure_le fs : (measure fs <= 3 * weight fs + 1)%nat.
Proof.
  destruct fs as [| f rest]; [simpl; lia |].
  unfold measure. pose proof (owes_newline_le f). lia.
Qed.

Lemma unreadc_no_timeout cap c fs : unreadc cap c fs <> Timeout.
Proof.
  unfold unreadc. destruct (c <? 0); [discriminate |].
  unfold bind, vec_tail, assert, store. destruct fs; [discriminate |].
  destruct (buflen f <? cap)%nat; discriminate.
Qed.

Lemma measure1_unread c f :
  measure1 (retreat c (set_buf (c :: buf f) f)) = (measure1 f + 3)%nat.
Proof.
  unfold retreat, measure1, weight1, buflen, src_len, owes_newline.
  destruct (c =? NL); simpl; lia.
Qed.

(** More iterations than needed change nothing. *)
Lemma readc_loop_mono cap n : forall fs m,
  (n <= m)%nat ->
  readc_loop cap n fs <> Timeout ->
  readc_loop cap m fs = readc_loop cap n fs.
Proof.
  induction n as [| n IH]; intros fs m Hle Hr; [simpl in Hr; congruence |].
  destruct m as [| m]; [lia |].
  destruct fs as [| f rest]; [reflexivity |].
  rewrite readc_loop_cons in Hr. rewrite !readc_loop_cons.
  destruct (getf f) as [c f1].
  destruct (c =? EOF).
  - destruct (autopop f); [| reflexivity]. apply IH; [lia | exact Hr].
  - destruct (negb (c =? BACKSLASH)); [reflexivity |].
    destruct (getf f1) as [c2 f2].
    destruct (c2 =? NL); [| reflexivity]. apply IH; [lia | exact Hr].
Qed.

(** [weight] iterations are enough: the loop of [readc] terminates. *)
Lemma readc_loop_total cap n : forall fs,
  (weight fs < n)%nat -> readc_loop cap n fs <> Timeout.
Proof.
  induction n as [| n IH]; intros fs Hw; [lia |].
  destruct fs as [| f rest]; [discriminate |].
  rewrite readc_loop_cons. rewrite weight_cons in Hw.
  pose proof (getf_cost f) as Hc. pose proof (weight1_pos f).
  destruct (getf f) as [c f1]; cbn [fst snd] in Hc.
  destruct Hc as (Hw1 & Hw2 & _).
  destruct (c =? EOF) eqn:E1.
  - destruct (autopop f); [apply IH; lia | discriminate].
  - destruct (negb (c =? BACKSLASH)) eqn:E2; [discriminate |].
    zbool. assert (weight1 f1 < weight1 f)%nat
      by (apply Hw2; [assumption | unfold NL, BACKSLASH in *; lia]).
    pose proof (getf_cost f1) as Hc. destruct (getf f1) as [c2 f2].
    cbn [fst snd] in Hc. destruct Hc as (Hw3 & _).
    destruct (c2 =? NL).
    + apply IH. rewrite weight_cons. lia.
    + pose proof (unreadc_no_timeout cap c2 (f2 :: rest)).
      destruct (unreadc cap c2 (f2 :: rest)) as [[[] fs3] | |];
        congruence.
Qed.

Lemma readc_no_timeout cap fs : readc cap fs <> Timeout.
Proof. apply readc_loop_total. lia. Qed.

Lemma readc_fuel cap n fs :
  (weight fs < n)%nat -> readc_loop cap n fs = readc cap fs.
Proof.
  intros Hn. unfold readc.
  destruct (Nat.le_ge_cases n (S (weight fs))).
  - symmetry. apply readc_loop_mono; [assumption |].
    apply readc_loop_total; assumption.
  - apply readc_loop_mono; [assumption |]. apply readc_loop_total. lia.
Qed.

(** A call of [readc] that returns a character lowers [measure]. *)
Lemma readc_loop_measure cap n : forall fs c fs',
  readc_loop cap n fs = Ok (c, fs') ->
  (c <> EOF -> measure fs' < measure fs)%nat /\
  (measure fs' <= measure fs)%nat.
Proof.
  induction n as [| n IH]; intros fs c fs' Hr; [discriminate |].
  destruct fs as [| f rest]; [discriminate |].
  rewrite readc_loop_cons in Hr.
  pose proof (getf_cost f) as Hc. pose proof (weight1_pos f).
  destruct (getf f) as [c1 f1]; cbn [fst snd] in Hc.
  destruct Hc as (_ & _ & Hm0 & Hm1 & Hm2).
  assert (Hpop : (measure rest + 1 < measure (f :: rest))%nat).
  { rewrite measure_cons. pose proof (measure_le rest).
    unfold measure1. pose proof (weight1_pos f). lia. }
  destruct (c1 =? EOF) eqn:E1.
  - destruct (autopop f).
    + apply IH in Hr. lia.
    + inversion Hr; subst. rewrite !measure_cons. zbool. split; [| lia].
      intros; congruence.
  - destruct (negb (c1 =? BACKSLASH)) eqn:E2.
    + inversion Hr; subst. rewrite !measure_cons. zbool.
      specialize (Hm1 E1). lia.
    + zbool. assert (measure1 f1 + 2 <= measure1 f)%nat
        by (apply Hm2; [assumption | unfold NL, BACKSLASH in *; lia]).
      pose proof (getf_cost f1) as Hc. destruct (getf f1) as [c2 f2].
      cbn [fst snd] in Hc. destruct Hc as (_ & _ & Hn0 & Hn1 & Hn2).
      destruct (c2 =? NL) eqn:E3.
      * apply IH in Hr. rewrite !measure_cons in *. lia.
      * zbool. destruct (Z.lt_ge_cases c2 0) as [Hneg | Hpos].
        -- rewrite unreadc_neg in Hr by assumption.
           inversion Hr; subst. rewrite !measure_cons. lia.
        -- rewrite unreadc_cons in Hr by assumption.
           destruct (buflen f2 <? cap)%nat; [| discriminate].
           inversion Hr; subst. rewrite !measure_cons.
           rewrite measure1_unread.
           assert (measure1 f2 + 2 <= measure1 f1)%nat
             by (apply Hn2; [unfold EOF; lia | assumption]).
           lia.
Qed.

Lemma readc_measure cap fs c fs' :
  readc cap fs = Ok (c, fs') -> c <> EOF -> (measure fs' < measure fs)%nat.
Proof.
  intros Hr Hc. apply readc_loop_measure in Hr. apply Hr; assumption.
Qed.

Lemma read_all_loop_mono cap n : forall fs m,
  (n <= m)%nat ->
  read_all_loop cap n fs <> Timeout ->
  read_all_loop cap m fs = read_all_loop cap n fs.
Proof.
  induction n as [| n IH]; intros fs m Hle Hr; [simpl in Hr; congruence |].
  destruct m as [| m]; [lia |].
  cbn [read_all_loop] in *. unfold bind at 1 in Hr. unfold bind at 1 3.
  destruct (readc cap fs) as [[c fs1] | |]; try reflexivity.
  destruct (c =? EOF); [reflexivity |].
  unfold bind in *. rewrite (IH fs1 m); [reflexivity | lia |].
  destruct (read_all_loop cap n fs1) as [[cs fs2] | |]; congruence.
Qed.

(** Reading to exhaustion terminates. *)
Lemma read_all_loop_total cap n : forall fs,
  (measure fs < n)%nat -> read_all_loop cap n fs <> Timeout.
Proof.
  induction n as [| n IH]; intros fs Hm; [lia |].
  cbn [read_all_loop]. unfold bind at 1.
  pose proof (readc_no_timeout cap fs) as Hnt.
  destruct (readc cap fs) as [[c fs1] | |] eqn:Hr; try congruence.
  destruct (c =? EOF) eqn:E; [discriminate |]. zbool.
  apply readc_measure in Hr; [| assumption].
  unfold bind. specialize (IH fs1).
  destruct (read_all_loop cap n fs1) as [[cs fs2] | |]; try discriminate.
  apply IH. lia.
Qed.

Lemma read_all_no_timeout cap fs : read_all cap fs <> Timeout.
Proof. apply read_all_loop_total. lia. Qed.

Lemma read_all_fuel cap n fs :
  (measure fs < n)%nat -> read_all_loop cap n fs = read_all cap fs.
Proof.
  intros Hn. unfold read_all.
  destruct (Nat.le_ge_cases n (S (measure fs))).
  - symmetry. apply read_all_loop_mono; [assumption |].
    apply read_all_loop_total; assumption.
  - apply read_all_loop_mono; [assumption |]. apply read_all_loop_total. lia.
Qed.

Lemma read_string_no_timeout cap s : read_string cap s <> Timeout.
Proof.
  unfold read_string, bind, push_stream_string, vec_push, chars.
  pose proof (read_all_no_timeout cap [make_file_string s false]).
  destruct (read_all cap [make_file_string s false]) as [[cs fs] | |];
    congruence.
Qed.

(** ** Units that read alike

    [readc] looks at the top unit only through [getf], [unreadc], [autopop]
    and the length of [buf].  Two top units related by a relation that
    these preserve therefore deliver the same characters. *)
Section Simulation.

Variable BUFCAP : nat.
Variable R : File -> File -> Prop.

Hypothesis R_autopop : forall f g, R f g -> autopop f = autopop g.
Hypothesis R_buf : forall f g, R f g -> buf f = buf g.
Hypothesis R_getf : forall f g,
  R f g -> fst (getf f) = fst (getf g) /\ R (snd (getf f)) (snd (getf g)).
Hypothesis R_unread : forall c f g,
  R f g ->
  R (retreat c (set_buf (c :: buf f) f)) (retreat c (set_buf (c :: buf g) g)).

Lemma alike_refl fs : alike R fs fs.
Proof. left; reflexivity. Qed.

Lemma alike_cons f g rest : R f g -> alike R (f :: rest) (g :: rest).
Proof. intros H; right; exists f, g, rest; auto. Qed.

Lemma sim_refl {A} (r : res (A * Vector)) : sim R r r.
Proof. destruct r as [[a fs] | |]; simpl; auto using alike_refl. Qed.

Lemma sim_chars {A} (r1 r2 : res (A * Vector)) :
  sim R r1 r2 -> chars r1 = chars r2.
Proof.
  destruct r1 as [[a fs] | |], r2 as [[b gs] | |]; simpl; try tauto.
  intros [-> _]; reflexivity.
Qed.

Lemma unreadc_sim c fs gs :
  alike R fs gs -> sim R (unreadc BUFCAP c fs) (unreadc BUFCAP c gs).
Proof.
  intros [-> | (f & g & rest & -> & -> & H)]; [apply sim_refl |].
  destruct (Z.lt_ge_cases c 0) as [Hneg | Hpos].
  - rewrite !unreadc_neg by assumption. simpl. auto using alike_cons.
  - rewrite !unreadc_cons by assumption. unfold buflen.
    pose proof (R_unread c _ _ H) as Hu.
    replace (length (buf g)) with (length (buf f))
      by (rewrite (R_buf _ _ H); reflexivity).
    destruct (length (buf f) <? BUFCAP)%nat; simpl; auto using alike_cons.
Qed.

Lemma readc_loop_sim n : forall fs gs,
  alike R fs gs -> sim R (readc_loop BUFCAP n fs) (readc_loop BUFCAP n gs).
Proof.
  induction n as [| n IH]; intros fs gs Hfg; [exact I |].
  destruct Hfg as [-> | (f & g & rest & -> & -> & H)]; [apply sim_refl |].
  rewrite !readc_loop_cons.
  destruct (R_getf _ _ H) as [Hc H1]. rewrite (R_autopop _ _ H).
  destruct (getf f) as [c f1], (getf g) as [c' g1]; cbn [fst snd] in *.
  subst c'.
  destruct (c =? EOF).
  - destruct (autopop g); [apply sim_refl | simpl; auto using alike_cons].
  - destruct (negb (c =? BACKSLASH)); [simpl; auto using alike_cons |].
    destruct (R_getf _ _ H1) as [Hc2 H2].
    destruct (getf f1) as [c2 f2], (getf g1) as [c2' g2]; cbn [fst snd] in *.
    subst c2'.
    destruct (c2 =? NL); [apply IH; auto using alike_cons |].
    pose proof (unreadc_sim c2 _ _ (alike_cons _ _ rest H2)) as Hu.
    destruct (unreadc BUFCAP c2 (f2 :: rest)) as [[[] fs3] | |],
             (unreadc BUFCAP c2 (g2 :: rest)) as [[[] gs3] | |];
      simpl in *; tauto.
Qed.

Lemma readc_sim fs gs :
  alike R fs gs -> sim R (readc BUFCAP fs) (readc BUFCAP gs).
Proof.
  intros H.
  rewrite <- (readc_fuel BUFCAP (S (Nat.max (weight fs) (weight gs))) fs)
    by lia.
  rewrite <- (readc_fuel BUFCAP (S (Nat.max (weight fs) (weight gs))) gs)
    by lia.
  apply readc_loop_sim; assumption.
Qed.

Lemma read_all_loop_sim n : forall fs gs,
  alike R fs gs ->
  sim R (read_all_loop BUFCAP n fs) (read_all_loop BUFCAP n gs).
Proof.
  induction n as [| n IH]; intros fs gs H; [exact I |].
  cbn [read_all_loop]. unfold bind at 1 3.
  pose proof (readc_sim _ _ H) as Hr.
  destruct (readc BUFCAP fs) as [[c fs1] | |],
           (readc BUFCAP gs) as [[c' gs1] | |]; simpl in Hr; try tauto.
  destruct Hr as [<- H1].
  destruct (c =? EOF); [simpl; auto |].
  unfold bind, ret. specialize (IH _ _ H1).
  destruct (read_all_loop BUFCAP n fs1) as [[cs fs2] | |],
           (read_all_loop BUFCAP n gs1) as [[cs' gs2] | |];
    simpl in *; try tauto.
  destruct IH as [<- H2]; auto.
Qed.

Lemma read_all_sim fs gs :
  alike R fs gs -> sim R (read_all BUFCAP fs) (read_all BUFCAP gs).
Proof.
  intros H.
  rewrite <- (read_all_fuel BUFCAP (S (Nat.max (measure fs) (measure gs))) fs)
    by lia.
  rewrite <- (read_all_fuel BUFCAP (S (Nat.max (measure fs) (measure gs))) gs)
    by lia.
  apply read_all_loop_sim; assumption.
Qed.

Lemma readn_sim n : forall fs gs,
  alike R fs gs -> sim R (readn BUFCAP n fs) (readn BUFCAP n gs).
Proof.
  induction n as [| n IH]; intros fs gs H; [simpl; auto |].
  cbn [readn]. unfold bind at 1 3.
  pose proof (readc_sim _ _ H) as Hr.
  destruct (readc BUFCAP fs) as [[c fs1] | |],
           (readc BUFCAP gs) as [[c' gs1] | |]; simpl in Hr; try tauto.
  destruct Hr as [<- H1].
  unfold bind, ret. specialize (IH _ _ H1).
  destruct (readn BUFCAP n fs1) as [[cs fs2] | |],
           (readn BUFCAP n gs1) as [[cs' gs2] | |];
    simpl in *; try tauto.
  destruct IH as [<- H2]; auto.
Qed.

End Simulation.

(** ** A unit that is not popped automatically stays on top *)

Lemma buflen_getf f : buflen (snd (getf f)) = Nat.pred (buflen f).
Proof.
  destruct f as [fl pp nm ln col lst bf ap].
  unfold getf, fetch, readc_file, readc_string, advance, buflen, getc.
  simpl. destruct bf as [| c0 bf];
    [destruct fl as [[| b0 [| b1 s]] |];
       [ | | | destruct pp as [| c [| c2 r]]] |];
    simpl; break_all; reflexivity.
Qed.

(** With room for one character in [buf], a call of [readc] on a tidy unit
    that is not popped automatically fails no assertion and leaves such a
    unit on top. *)
Lemma readc_loop_stays cap n : forall f rest,
  (0 < cap)%nat -> autopop f = false -> tidy f ->
  stays rest (readc_loop cap n (f :: rest)).
Proof.
  unfold tidy.
  induction n as [| n IH]; intros f rest Hcap Hap Ht; [exact I |].
  rewrite readc_loop_cons.
  pose proof (buflen_getf f) as Hb1. pose proof (autopop_getf f) as Ha1.
  destruct (getf f) as [c f1]; cbn [fst snd] in *.
  rewrite Hap.
  assert (Hf1 : buflen f1 = 0%nat) by lia.
  destruct (c =? EOF).
  { exists f1. unfold tidy. repeat split; [lia | congruence]. }
  destruct (negb (c =? BACKSLASH)).
  { exists f1. unfold tidy. repeat split; [lia | congruence]. }
  pose proof (buflen_getf f1) as Hb2. pose proof (autopop_getf f1) as Ha2.
  destruct (getf f1) as [c2 f2]; cbn [fst snd] in *.
  destruct (c2 =? NL); [apply IH; [assumption | congruence | lia] |].
  destruct (Z.lt_ge_cases c2 0) as [Hneg | Hpos].
  - rewrite unreadc_neg by assumption.
    exists f2. unfold tidy. repeat split; [lia | congruence].
  - rewrite unreadc_cons by assumption.
    assert (Hlt : (buflen f2 <? cap)%nat = true) by (apply Nat.ltb_lt; lia).
    rewrite Hlt. eexists; split; [reflexivity |]. unfold tidy. split.
    + unfold retreat, buflen. destruct (c2 =? NL); simpl;
        fold (buflen f2); lia.
    + rewrite autopop_retreat. simpl. congruence.
Qed.

Lemma readc_stays cap f rest :
  (0 < cap)%nat -> autopop f = false -> tidy f ->
  exists c f', readc cap (f :: rest) = Ok (c, f' :: rest) /\
               tidy f' /\ autopop f' = false.
Proof.
  intros Hcap Hap Ht.
  pose proof (readc_loop_stays cap (S (weight (f :: rest))) f rest Hcap Hap Ht)
    as H.
  pose proof (readc_no_timeout cap (f :: rest)) as Hnt.
  unfold readc in *.
  destruct (readc_loop cap (S (weight (f :: rest))) (f :: rest))
    as [[c fs'] | |]; simpl in H; try tauto.
  destruct H as (f' & -> & H1 & H2). exists c, f'. auto.
Qed.

Lemma read_all_loop_ok cap n : forall f rest,
  (0 < cap)%nat -> autopop f = false -> tidy f ->
  read_all_loop cap n (f :: rest) <> Abort.
Proof.
  induction n as [| n IH]; intros f rest Hcap Hap Ht; [discriminate |].
  cbn [read_all_loop]. unfold bind at 1.
  destruct (readc_stays cap f rest Hcap Hap Ht) as (c & f' & -> & Ht' & Hap').
  destruct (c =? EOF); [discriminate |].
  unfold bind, ret. specialize (IH f' rest Hcap Hap' Ht').
  destruct (read_all_loop cap n (f' :: rest)) as [[cs fs2] | |];
    congruence.
Qed.

(** A string-backed unit alone on the stack is read to exhaustion without
    failure as soon as [buf] has room for one character. *)
Lemma read_string_ok cap s :
  (0 < cap)%nat -> exists cs, read_string cap s = Ok cs.
Proof.
  intros Hcap.
  pose proof (read_string_no_timeout cap s) as Hnt.
  assert (Hna : read_string cap s <> Abort).
  { unfold read_string, bind, push_stream_string, vec_push, chars.
    pose proof (read_all_loop_ok cap
                  (S (measure [make_file_string s false]))
                  (make_file_string s false) [] Hcap eq_refl) as H.
    unfold read_all.
    destruct (read_all_loop cap _ [make_file_string s false])
      as [[cs fs] | |]; try discriminate.
    exfalso. apply H; [unfold tidy, buflen; simpl; lia | reflexivity]. }
  destruct (read_string cap s) as [cs | |]; [eauto | congruence | congruence].
Qed.

(** ** Newline canonicalisation against pre-substitution *)

Lemma readc_string_crlf f :
  fst (readc_string (set_p (crlf (p f)) f)) = fst (readc_string f) /\
  snd (readc_string (set_p (crlf (p f)) f)) =
  set_p (crlf (p (snd (readc_string f)))) (snd (readc_string f)).
Proof.
  destruct f as [fl pp nm ln col lst bf ap].
  unfold readc_string, set_p, set_last, at_eof;
    cbn [p last file name line column buf autopop].
  destruct pp as [| c r]; [split; reflexivity |].
  cbn [crlf]. destruct (c =? 0) eqn:E0.
  - zbool; subst c. cbn. split; reflexivity.
  - destruct (c =? CR) eqn:E1.
    + destruct r as [| c2 r'].
      * cbn. split; reflexivity.
      * destruct (c2 =? NL) eqn:E2; cbn; split; reflexivity.
    + rewrite E0, E1. cbn. split; reflexivity.
Qed.

Lemma crlf_rel_getf f g :
  crlf_rel f g ->
  fst (getf f) = fst (getf g) /\ crlf_rel (snd (getf f)) (snd (getf g)).
Proof.
  unfold crlf_rel. intros ->. unfold getf, fetch. cbn [fst snd].
  replace (buf (set_p (crlf (p f)) f)) with (buf f) by reflexivity.
  replace (file (set_p (crlf (p f)) f)) with (file f) by reflexivity.
  destruct (buf f) as [| c0 b] eqn:Eb.
  - destruct (file f) as [s |] eqn:Ef.
    + unfold readc_file. destruct (getc s) as [c s1].
      destruct (c =? EOF).
      * cbn [fst snd]. split; [reflexivity |].
        unfold advance, at_eof; simpl. break_all; reflexivity.
      * destruct (c =? CR).
        -- destruct (getc s1) as [c2 s2]. cbn [fst snd].
           split; reflexivity.
        -- cbn [fst snd]. split; [reflexivity |].
           unfold advance. break_all; reflexivity.
    + destruct (readc_string_crlf f) as [H1 H2]. rewrite H1, H2.
      split; [reflexivity |]. unfold advance. break_all; reflexivity.
  - cbn [fst snd]. split; [reflexivity |]. unfold advance.
    break_all; reflexivity.
Qed.

Lemma crlf_rel_unread c f g :
  crlf_rel f g ->
  crlf_rel (retreat c (set_buf (c :: buf f) f))
           (retreat c (set_buf (c :: buf g) g)).
Proof.
  unfold crlf_rel. intros ->. unfold retreat.
  destruct (c =? NL); reflexivity.
Qed.

Lemma crlf_no_cr_bounded n : forall s,
  (length s <= n)%nat -> ~ In CR (crlf s).
Proof.
  induction n as [| n IH]; intros s Hn.
  - destruct s; [simpl; tauto | simpl in Hn; lia].
  - destruct s as [| c r]; [simpl; tauto |]. simpl in Hn. cbn [crlf].
    destruct (c =? CR) eqn:E.
    + destruct r as [| c2 r']; [simpl; intros [H | []]; discriminate |].
      simpl in Hn. destruct (c2 =? NL).
      * intros [H | H]; [discriminate | revert H; apply IH; lia].
      * intros [H | H]; [discriminate |].
        revert H; apply IH; simpl; lia.
    + zbool. intros [H | H]; [congruence | revert H; apply IH; lia].
Qed.

Lemma crlf_no_cr s : ~ In CR (crlf s).
Proof. apply (crlf_no_cr_bounded (length s)). lia. Qed.

(** C2. For every string [s], the characters read from [s] to exhaustion
    through a string-backed unit are the characters read from the string in
    which every "\r\n" and every remaining '\r' has been replaced by '\n'
    beforehand, a string without '\r', which is therefore read without any
    canonicalisation.  Reading to exhaustion terminates, and fails no
    assertion when [buf] has room for a character. *)
Theorem crlf_presubstitution cap s :
  read_string cap s = read_string cap (crlf s) /\
  ~ In CR (crlf s) /\
  read_string cap s <> Timeout /\
  ((0 < cap)%nat -> exists cs, read_string cap s = Ok cs).
Proof.
  split; [| split; [apply crlf_no_cr |
            split; [apply read_string_no_timeout | apply read_string_ok]]].
  unfold read_string, bind, push_stream_string, vec_push.
  apply (sim_chars crlf_rel).
  apply read_all_sim.
  - intros f g ->; reflexivity.
  - intros f g ->; reflexivity.
  - apply crlf_rel_getf.
  - apply crlf_rel_unread.
  - apply alike_cons. reflexivity.
Qed.

(** ** End-of-file regularisation against an appended newline *)

Lemma eofreg_rel_fetch f g :
  eofreg_rel f g ->
  fst (fetch f) = fst (fetch g) /\ eofreg_rel (snd (fetch f)) (snd (fetch g)).
Proof.
  intros [<- | (-> & Hf & Ho)]; [split; [reflexivity | left; reflexivity] |].
  destruct f as [fl pp nm ln col lst bf ap].
  unfold eofreg_rel, ends_open, fetch, readc_string, at_eof, set_p, set_last
    in *.
  cbn [file p buf last name line column autopop] in *. subst fl.
  destruct bf as [| c0 bf].
  2:{ cbn [fst snd]. split; [reflexivity |]. right. cbn. auto. }
  destruct pp as [| c r].
  - cbn [app]. destruct Ho as [H1 H2].
    apply Z.eqb_neq in H1, H2. rewrite H1, H2. cbn. auto.
  - cbn [app]. destruct (c =? 0) eqn:E0.
    { cbn [fst snd]. split; [reflexivity |]. right. cbn. auto. }
    destruct (c =? CR) eqn:E1.
    + destruct r as [| c2 r'].
      * cbn. auto.
      * cbn [app]. destruct (c2 =? NL) eqn:E2.
        -- cbn [fst snd]. split; [reflexivity |]. right.
           cbn [file p buf last name line column autopop].
           split; [reflexivity |]. split; [reflexivity |].
           zbool; subst. destruct r' as [| c3 r'']; [cbn in Ho; tauto |].
           exact Ho.
        -- cbn [fst snd]. split; [reflexivity |]. right.
           cbn [file p buf last name line column autopop].
           split; [reflexivity |]. split; [reflexivity |]. exact Ho.
    + cbn [fst snd]. split; [reflexivity |]. right.
      cbn [file p buf last name line column autopop].
      split; [reflexivity |]. split; [reflexivity |].
      destruct r as [| c2 r']; exact Ho.
Qed.

Lemma eofreg_rel_advance c f g :
  eofreg_rel f g -> eofreg_rel (advance c f) (advance c g).
Proof.
  intros [<- | (-> & Hf & Ho)]; [left; reflexivity | right].
  unfold advance, ends_open in *. destruct (c =? NL); simpl; auto.
Qed.

Lemma eofreg_rel_getf f g :
  eofreg_rel f g ->
  fst (getf f) = fst (getf g) /\ eofreg_rel (snd (getf f)) (snd (getf g)).
Proof.
  intros H. destruct (eofreg_rel_fetch f g H) as [Hc Hr].
  unfold getf; cbn [fst snd]. rewrite <- Hc.
  split; [reflexivity | apply eofreg_rel_advance; assumption].
Qed.

Lemma eofreg_rel_unread c f g :
  eofreg_rel f g ->
  eofreg_rel (retreat c (set_buf (c :: buf f) f))
             (retreat c (set_buf (c :: buf g) g)).
Proof.
  intros [<- | (-> & Hf & Ho)]; [left; reflexivity | right].
  unfold retreat, ends_open in *. destruct (c =? NL); simpl; auto.
Qed.

Lemma read_string_open_end cap s :
  List.last s 0 <> NL ->
  List.last s 0 <> EOF ->
  read_string cap s = read_string cap (s ++ [NL]).
Proof.
  intros H1 H2.
  unfold read_string, bind, push_stream_string, vec_push.
  apply (sim_chars eofreg_rel).
  apply read_all_sim.
  - intros f g [<- | (-> & _)]; reflexivity.
  - intros f g [<- | (-> & _)]; reflexivity.
  - apply eofreg_rel_getf.
  - apply eofreg_rel_unread.
  - apply alike_cons. right. split; [reflexivity |]. split; [reflexivity |].
    unfold ends_open; simpl. destruct s; [split; discriminate | auto].
Qed.

(** X13. For every string [s] that ends neither in a newline nor in a
    character whose [int] value is that of [EOF], the characters read from
    [s] to exhaustion through a string-backed unit are the characters read
    from [s] with a newline appended.  Reading terminates, and fails no
    assertion when [buf] has room for a character. *)
Theorem eof_regularization cap s :
  List.last s 0 <> NL ->
  List.last s 0 <> EOF ->
  read_string cap s = read_string cap (s ++ [NL]) /\
  read_string cap s <> Timeout /\
  ((0 < cap)%nat -> exists cs, read_string cap s = Ok cs).
Proof.
  intros H1 H2.
  split; [apply read_string_open_end; assumption |].
  split; [apply read_string_no_timeout | apply read_string_ok].
Qed.

(** C3, at the failing input.  The string backslash, 0xff does not end in a
    newline.  Where plain [char] is signed, its second character has the
    [int] value -1 of [EOF]: [readc] returns the backslash, [unreadc] drops
    the character looked at, and with [last] equal to [EOF] the unit reports
    [EOF] without the newline owed, whereas the same string followed by a
    newline delivers that newline.  The file-backed reader, whose bytes come
    out of [getc] as values of [unsigned char], delivers both bytes and the
    newline. *)
Theorem eof_regularization_lost_at_xff cap :
  let s := [BACKSLASH; -1] in
  List.last s 0 <> NL /\
  read_string cap s = Ok [BACKSLASH] /\
  read_string cap (s ++ [NL]) = Ok [BACKSLASH; NL] /\
  read_string cap s <> read_string cap (s ++ [NL]) /\
  read_file (S cap) [x5c; xff] None = Ok [BACKSLASH; 255; NL].
Proof.
  intros s.
  assert (H1 : read_string cap s = Ok [BACKSLASH])
    by (vm_compute; reflexivity).
  assert (H2 : read_string cap (s ++ [NL]) = Ok [BACKSLASH; NL])
    by (vm_compute; reflexivity).
  split; [discriminate |]. split; [exact H1 |]. split; [exact H2 |].
  split; [rewrite H1, H2; discriminate |].
  vm_compute. reflexivity.
Qed.

(** ** The loops as equations *)

Lemma readc_eq cap f rest :
  readc cap (f :: rest) =
  let (c, f1) := getf f in
  if c =? EOF then
    if autopop f then readc cap rest else Ok (c, f1 :: rest)
  else if negb (c =? BACKSLASH) then Ok (c, f1 :: rest)
  else
    let (c2, f2) := getf f1 in
    if c2 =? NL then readc cap (f2 :: rest)
    else
      match unreadc cap c2 (f2 :: rest) with
      | Ok (_, fs3) => Ok (c, fs3)
      | Abort => Abort
      | Timeout => Timeout
      end.
Proof.
  unfold readc at 1. rewrite readc_loop_cons.
  pose proof (getf_cost f) as Hc. pose proof (weight1_pos f).
  destruct (getf f) as [c f1]; cbn [fst snd] in Hc.
  destruct Hc as (Hw1 & Hw2 & _).
  destruct (c =? EOF) eqn:E1.
  - destruct (autopop f); [| reflexivity].
    apply readc_fuel. rewrite weight_cons. lia.
  - destruct (negb (c =? BACKSLASH)) eqn:E2; [reflexivity |].
    zbool. assert (weight1 f1 < weight1 f)%nat
      by (apply Hw2; [assumption | unfold NL, BACKSLASH in *; lia]).
    pose proof (getf_cost f1) as Hc. destruct (getf f1) as [c2 f2].
    cbn [fst snd] in Hc. destruct Hc as (Hw3 & _).
    destruct (c2 =? NL); [| reflexivity].
    apply readc_fuel. rewrite !weight_cons. lia.
Qed.

Lemma readc_nil cap : readc cap [] = Abort.
Proof. reflexivity. Qed.

Lemma read_all_eq cap fs :
  read_all cap fs =
  match readc cap fs with
  | Ok (c, fs1) =>
      if c =? EOF then Ok ([], fs1)
      else
        match read_all cap fs1 with
        | Ok (cs, fs2) => Ok (c :: cs, fs2)
        | Abort => Abort
        | Timeout => Timeout
        end
  | Abort => Abort
  | Timeout => Timeout
  end.
Proof.
  unfold read_all at 1. cbn [read_all_loop]. unfold bind at 1.
  destruct (readc cap fs) as [[c fs1] | |] eqn:Hr; try reflexivity.
  destruct (c =? EOF) eqn:E; [reflexivity |]. zbool.
  apply readc_measure in Hr; [| assumption].
  unfold bind, ret. rewrite read_all_fuel by lia. reflexivity.
Qed.

(** A unit that is not popped automatically is still on top, and still not
    popped automatically, after a call of [readc] that returns. *)
Lemma readc_loop_top cap n : forall f rest c fs',
  autopop f = false ->
  readc_loop cap n (f :: rest) = Ok (c, fs') ->
  exists f', fs' = f' :: rest /\ autopop f' = false.
Proof.
  induction n as [| n IH]; intros f rest c fs' Hap Hr; [discriminate |].
  rewrite readc_loop_cons in Hr.
  pose proof (autopop_getf f) as Ha1.
  destruct (getf f) as [c1 f1]; cbn [fst snd] in *. rewrite Hap in *.
  destruct (c1 =? EOF).
  { inversion Hr; subst. eauto. }
  destruct (negb (c1 =? BACKSLASH)).
  { inversion Hr; subst. eauto. }
  pose proof (autopop_getf f1) as Ha2.
  destruct (getf f1) as [c2 f2]; cbn [fst snd] in *.
  destruct (c2 =? NL); [apply IH in Hr; [assumption | congruence] |].
  destruct (Z.lt_ge_cases c2 0) as [Hneg | Hpos].
  - rewrite unreadc_neg in Hr by assumption. inversion Hr; subst.
    exists f2. split; [reflexivity | congruence].
  - rewrite unreadc_cons in Hr by assumption.
    destruct (buflen f2 <? cap)%nat; [| discriminate].
    inversion Hr; subst. eexists; split; [reflexivity |].
    rewrite autopop_retreat. simpl. congruence.
Qed.

(** An [EOF] returned by [readc] is the [EOF] of a unit that is not popped
    automatically, and that unit is then on top. *)
Lemma readc_loop_eof cap n : forall fs fs',
  readc_loop cap n fs = Ok (EOF, fs') ->
  exists f' rest', fs' = f' :: rest' /\ autopop f' = false.
Proof.
  induction n as [| n IH]; intros fs fs' Hr; [discriminate |].
  destruct fs as [| f rest]; [discriminate |].
  rewrite readc_loop_cons in Hr.
  pose proof (autopop_getf f) as Ha1.
  destruct (getf f) as [c1 f1]; cbn [fst snd] in *.
  destruct (c1 =? EOF) eqn:E1.
  { destruct (autopop f) eqn:Hap; [eauto |].
    inversion Hr; subst. exists f1, rest. split; [reflexivity | congruence]. }
  destruct (negb (c1 =? BACKSLASH)) eqn:E2.
  { inversion Hr; subst. discriminate. }
  destruct (getf f1) as [c2 f2].
  destruct (c2 =? NL); [eauto |].
  zbool. destruct (unreadc cap c2 (f2 :: rest)) as [[[] fs3] | |];
    try discriminate.
  inversion Hr; subst. discriminate.
Qed.

(** ** What an exhausted unit delivers *)

Lemma wrap_int_succ_neq z : wrap_int (z + 1) <> z.
Proof.
  unfold wrap_int. intros H.
  pose proof (Z.mod_pos_bound (z + 1 + 2 ^ 31) (2 ^ 32) eq_refl) as Hb.
  assert (Hz : (z + 1 + 2 ^ 31) mod 2 ^ 32 = z + 2 ^ 31) by lia.
  assert (Hm : (z + 1 + 2 ^ 31) mod 2 ^ 32 = (z + 2 ^ 31 + 1) mod 2 ^ 32)
    by (f_equal; lia).
  rewrite Hm in *. clear Hm H.
  assert (Hs : 0 <= z + 2 ^ 31 < 2 ^ 32) by lia.
  destruct (Z.eq_dec (z + 2 ^ 31 + 1) (2 ^ 32)) as [He | Hne].
  - rewrite He, Z.mod_same in Hz by lia. lia.
  - rewrite Z.mod_small in Hz by lia. lia.
Qed.

Lemma wrap_int_range z : int_range (wrap_int z).
Proof.
  unfold int_range, wrap_int.
  pose proof (Z.mod_pos_bound (z + 2 ^ 31) (2 ^ 32) eq_refl). lia.
Qed.

Lemma wrap_int_id z : int_range z -> wrap_int z = z.
Proof.
  unfold int_range, wrap_int. intros H.
  rewrite Z.mod_small by lia. lia.
Qed.

Lemma show_int_inj a b : show_int a = show_int b -> a = b.
Proof.
  unfold show_int. intros H. apply DecimalZ.to_int_inj.
  assert (Hnn : forall z, Z.to_int z <> Decimal.Pos Decimal.Nil /\
                          Z.to_int z <> Decimal.Neg Decimal.Nil).
  { intros [| q | q]; simpl; split; try discriminate;
      intros Hq; inversion Hq;
      eapply DecimalPos.Unsigned.to_uint_nonnil; eassumption. }
  apply (f_equal NilZero.int_of_string) in H.
  rewrite !NilZero.isi in H by apply Hnn.
  congruence.
Qed.

Lemma append_inv_head (a b c : string) :
  (a ++ b = a ++ c)%string -> b = c.
Proof.
  induction a as [| x a IH]; simpl; intros H; [assumption |].
  inversion H; auto.
Qed.

Lemma input_position_cons f rest :
  input_position (f :: rest) =
  Ok (format_position (name f) (line f) (column f), f :: rest).
Proof. reflexivity. Qed.

Lemma format_position_column nm l c c' :
  format_position nm l c = format_position nm l c' -> c = c'.
Proof.
  unfold format_position. intros H.
  apply append_inv_head in H. simpl in H. inversion H as [H1].
  apply append_inv_head in H1. simpl in H1. inversion H1 as [H2].
  apply show_int_inj; assumption.
Qed.

Lemma getf_exhausted f :
  exhausted f = true ->
  getf f = (EOF, set_column (wrap_int (column f + 1)) (set_last EOF f)).
Proof.
  destruct f as [fl pp nm ln col lst bf ap].
  unfold exhausted, at_end, getf, fetch, readc_file, readc_string, at_eof,
    advance, getc. simpl.
  destruct bf as [| c0 bf]; [| discriminate].
  destruct fl as [[| b0 s] |]; simpl.
  - intros H. rewrite H. reflexivity.
  - discriminate.
  - destruct pp as [| c r]; simpl.
    + intros H. rewrite H. reflexivity.
    + intros H. apply andb_true_iff in H. destruct H as [H0 H].
      rewrite H0, H. reflexivity.
Qed.

(** C9. A read that delivers [EOF] still advances the column: on a top
    unit that is exhausted and not popped automatically, [readc] returns
    [EOF] and leaves the unit with its column incremented, so that
    [input_position] changes; the unit is exhausted as before, so that every
    further call does the same. *)
Theorem eof_read_advances_column cap f rest :
  exhausted f = true ->
  autopop f = false ->
  exists f',
    readc cap (f :: rest) = Ok (EOF, f' :: rest) /\
    column f' = wrap_int (column f + 1) /\
    column f' <> column f /\
    line f' = line f /\
    chars (input_position (f' :: rest)) <> chars (input_position (f :: rest)) /\
    exhausted f' = true /\
    autopop f' = false.
Proof.
  intros Hex Hap.
  exists (set_column (wrap_int (column f + 1)) (set_last EOF f)).
  split.
  { rewrite readc_eq, (getf_exhausted f Hex), Hap. reflexivity. }
  split; [reflexivity |].
  split; [apply wrap_int_succ_neq |].
  split; [reflexivity |].
  split.
  { rewrite !input_position_cons. simpl. intros H.
    injection H as H. apply format_position_column in H.
    exact (wrap_int_succ_neq _ H). }
  split; [| exact Hap].
  unfold exhausted, at_end in *. simpl.
  destruct (buf f); [| discriminate].
  apply andb_true_iff in Hex. destruct Hex as [He _].
  rewrite He. reflexivity.
Qed.

(** C4. With an exhausted unit [b] that is popped automatically on top of
    a unit [a] that is not, [readc] returns what it returns on the stack
    without [b]: the next character of [a], or what [a] yields at its own
    end.  The call leaves [a] on top, and an [EOF] that [readc] returns
    never leaves a unit that is popped automatically on top. *)
Theorem autopop_transparent cap b a rest :
  autopop b = true ->
  autopop a = false ->
  exhausted b = true ->
  readc cap (b :: a :: rest) = readc cap (a :: rest) /\
  (forall c fs', readc cap (b :: a :: rest) = Ok (c, fs') ->
     exists a', fs' = a' :: rest /\ autopop a' = false) /\
  (forall fs fs', readc cap fs = Ok (EOF, fs') ->
     exists f' rest', fs' = f' :: rest' /\ autopop f' = false).
Proof.
  intros Hb Ha Hex.
  assert (Heq : readc cap (b :: a :: rest) = readc cap (a :: rest)).
  { rewrite readc_eq, (getf_exhausted b Hex), Hb. reflexivity. }
  split; [exact Heq |]. split.
  - intros c fs'. rewrite Heq. unfold readc. apply readc_loop_top. exact Ha.
  - intros fs fs'. unfold readc. apply readc_loop_eof.
Qed.

(** An included file above its includer: the characters of the inner unit,
    then those of the outer one, and one [EOF], that of the outer unit. *)
Example nested_include cap :
  chars ((push_stream [x78; x0a] (Some "main.c"%string) ;;;
          insert_stream [x61; x0a] (Some "inc.h"%string) ;;;
          readn cap 5) []) =
  Ok [chr "a"; NL; chr "x"; NL; EOF].
Proof. vm_compute. reflexivity. Qed.

(** C5. Reading the string a, backslash, newline, backslash, newline, b,
    newline through a string-backed unit yields 'a', 'b', newline and then
    [EOF]. *)
Theorem chained_splice cap :
  chars ((push_stream_string
            [chr "a"; BACKSLASH; NL; BACKSLASH; NL; chr "b"; NL] ;;;
          readn cap 4) []) =
  Ok [chr "a"; chr "b"; NL; EOF] /\
  read_string cap [chr "a"; BACKSLASH; NL; BACKSLASH; NL; chr "b"; NL] =
  Ok [chr "a"; chr "b"; NL].
Proof. split; vm_compute; reflexivity. Qed.

(** C6. On a non-empty stack, [unreadc] of a character that is not negative
    succeeds when the top unit holds fewer pushed-back characters than [buf]
    has elements: the character is stored on top of them, their number grows
    by one and stays within the array, and nothing else changes but the
    position.  With a full [buf] the call stops on its assertion. *)
Theorem unreadc_capacity cap c f rest :
  0 <= c ->
  ((buflen f < cap)%nat ->
     exists f',
       unreadc cap c (f :: rest) = Ok (tt, f' :: rest) /\
       buf f' = c :: buf f /\
       buflen f' = S (buflen f) /\
       (buflen f' <= cap)%nat /\
       file f' = file f /\ p f' = p f /\ last f' = last f /\
       name f' = name f /\ autopop f' = autopop f) /\
  ((cap <= buflen f)%nat -> unreadc cap c (f :: rest) = Abort).
Proof.
  intros Hc. rewrite unreadc_cons by assumption. split; intros Hn.
  - apply Nat.ltb_lt in Hn. rewrite Hn.
    eexists; split; [reflexivity |].
    unfold retreat, buflen in *. apply Nat.ltb_lt in Hn.
    destruct (c =? NL); simpl; repeat split; lia.
  - apply Nat.ltb_ge in Hn. rewrite Hn. reflexivity.
Qed.

(** C7. [unreadc] of a negative character, [EOF] included, returns without
    failure and leaves the whole stack as it was, whatever the stack. *)
Theorem unreadc_eof_noop cap c fs :
  c < 0 -> unreadc cap c fs = Ok (tt, fs).
Proof. apply unreadc_neg. Qed.

(** C8. [input_position] fails on no stack: it returns "(unknown)" on the
    empty stack, and on any other stack the name, the line and the column
    of the top unit separated by colons. *)
Theorem input_position_spec :
  input_position [] = Ok ("(unknown)"%string, []) /\
  (forall f rest,
     input_position (f :: rest) =
     Ok ((show_name (name f) ++ ":" ++ show_int (line f) ++ ":" ++
          show_int (column f))%string, f :: rest)) /\
  chars (input_position
           [mkFile (Some []) [] (Some "main.c"%string) 12 5 NL [] false]) =
  Ok "main.c:12:5"%string.
Proof. repeat split. Qed.

(** ** A trailing backslash *)

Lemma getf_sunit_bs nm l c lst :
  getf (sunit [BACKSLASH] nm l c lst) =
  (BACKSLASH, sunit [] nm l (wrap_int (c + 1)) BACKSLASH).
Proof. reflexivity. Qed.

Lemma getf_sunit_owed nm l c :
  getf (sunit [] nm l c BACKSLASH) = (NL, sunit [] nm (wrap_int (l + 1)) 0 NL).
Proof. reflexivity. Qed.

Lemma getf_sunit_done nm l c :
  getf (sunit [] nm l c NL) = (EOF, sunit [] nm l (wrap_int (c + 1)) EOF).
Proof. reflexivity. Qed.

Ltac eval_tests := cbn [Z.eqb Pos.eqb BACKSLASH EOF NL CR negb autopop sunit].

Lemma readc_sunit_end cap rest nm l c lst :
  exists l' c' lst',
  readc cap (sunit [BACKSLASH] nm l c lst :: rest) =
  Ok (EOF, sunit [] nm l' c' lst' :: rest).
Proof.
  rewrite readc_eq, getf_sunit_bs. eval_tests.
  fold NL. fold (sunit [] nm l (wrap_int (c + 1)) 92). fold BACKSLASH.
  rewrite getf_sunit_owed. eval_tests.
  fold NL. fold (sunit [] nm (wrap_int (l + 1)) 0 NL).
  rewrite readc_eq, getf_sunit_done. eval_tests. eauto.
Qed.

Lemma readc_sunit_plain cap rest nm l c lst x r :
  plain x -> x <> CR ->
  exists l' c' lst',
  readc cap (sunit (x :: r) nm l c lst :: rest) =
  Ok (x, sunit r nm l' c' lst' :: rest).
Proof.
  intros (H0 & H1 & H2) H3.
  rewrite readc_eq. unfold getf, fetch, readc_string, sunit.
  cbn [buf file p fst snd].
  apply Z.eqb_neq in H0, H1, H2, H3. rewrite H0, H3. cbn [fst snd].
  rewrite H1, H2. cbn [negb]. unfold advance, set_last, set_p.
  cbn [file p name line column last buf autopop].
  destruct (x =? NL); unfold set_column, set_line;
    cbn [file p name line column last buf autopop]; eauto.
Qed.

Lemma readc_sunit_cr cap rest nm l c lst r :
  exists l' c' lst',
  readc cap (sunit (CR :: r) nm l c lst :: rest) =
  Ok (NL, sunit (match r with
                 | x :: r' => if x =? NL then r' else r
                 | [] => []
                 end) nm l' c' lst' :: rest).
Proof.
  rewrite readc_eq. unfold getf, fetch, readc_string, sunit.
  cbn [buf file p fst snd].
  change (CR =? 0) with false. change (CR =? CR) with true. cbv iota.
  destruct r as [| x r'];
    [| destruct (x =? NL)];
    cbn [fst snd]; change (NL =? EOF) with false;
    change (NL =? BACKSLASH) with false; cbn [negb];
    unfold advance; change (NL =? NL) with true; cbv iota;
    unfold set_last, set_p, set_column, set_line;
    cbn [file p name line column last buf autopop]; eauto.
Qed.

Lemma read_all_plain cap rest n : forall s nm l c lst,
  (length s <= n)%nat -> Forall plain s ->
  chars (read_all cap (sunit (s ++ [BACKSLASH]) nm l c lst :: rest)) =
  Ok (crlf s).
Proof.
  induction n as [| n IH]; intros s nm l c lst Hn Hs.
  - destruct s; [| simpl in Hn; lia]. cbn [app crlf].
    rewrite read_all_eq.
    destruct (readc_sunit_end cap rest nm l c lst) as (l' & c' & lst' & ->).
    reflexivity.
  - destruct s as [| x r].
    { cbn [app crlf]. rewrite read_all_eq.
      destruct (readc_sunit_end cap rest nm l c lst) as (l' & c' & lst' & ->).
      reflexivity. }
    inversion Hs as [| ? ? Hx Hr]; subst. simpl in Hn.
    rewrite read_all_eq. cbn [app crlf].
    destruct (x =? CR) eqn:E.
    + zbool; subst x.
      destruct (readc_sunit_cr cap rest nm l c lst (r ++ [BACKSLASH]))
        as (l' & c' & lst' & ->).
      change (NL =? EOF) with false. cbv iota.
      destruct r as [| y r'].
      * cbn [app]. change (BACKSLASH =? NL) with false. cbv iota.
        specialize (IH [] nm l' c' lst'). cbn [app crlf] in IH.
        destruct (read_all cap _) as [[cs fs] | |]; simpl in *;
          try (rewrite IH by (simpl; auto; lia); reflexivity).
        all: specialize (IH ltac:(simpl; lia) ltac:(constructor)); congruence.
      * cbn [app]. inversion Hr; subst. destruct (y =? NL).
        -- specialize (IH r' nm l' c' lst' ltac:(simpl in *; lia)
                         ltac:(assumption)).
           destruct (read_all cap _) as [[cs fs] | |]; simpl in *; congruence.
        -- specialize (IH (y :: r') nm l' c' lst' ltac:(simpl in *; lia)
                         ltac:(assumption)).
           cbn [app] in IH.
           destruct (read_all cap _) as [[cs fs] | |]; simpl in *; congruence.
    + zbool.
      destruct (readc_sunit_plain cap rest nm l c lst x (r ++ [BACKSLASH]) Hx E)
        as (l' & c' & lst' & ->).
      destruct Hx as (_ & Hx & _). apply Z.eqb_neq in Hx. rewrite Hx.
      specialize (IH r nm l' c' lst' ltac:(lia) Hr).
      destruct (read_all cap _) as [[cs fs] | |]; simpl in *; congruence.
Qed.

(** C10. A backslash that ends the string of a string-backed unit is never
    delivered: the newline supplied at the end of the string is spliced away
    with it, exactly as if the string ended in backslash and newline.  After
    a string [s] of characters other than backslash, NUL and the value of
    [EOF], the unit delivers [s] (carriage returns canonicalised) and then
    [EOF]; for the string a, backslash it delivers 'a' and then [EOF]. *)
Theorem trailing_backslash cap s :
  read_string cap (s ++ [BACKSLASH]) =
  read_string cap (s ++ [BACKSLASH; NL]) /\
  (Forall plain s -> read_string cap (s ++ [BACKSLASH]) = Ok (crlf s)) /\
  read_string cap [chr "a"; BACKSLASH] = Ok [chr "a"].
Proof.
  split; [| split].
  - change (s ++ [BACKSLASH; NL]) with (s ++ [BACKSLASH] ++ [NL]).
    rewrite app_assoc. apply read_string_open_end;
      rewrite last_last; discriminate.
  - intros Hs. unfold read_string, bind, push_stream_string, vec_push.
    apply (read_all_plain cap [] (length s) s None 1 0 0 (le_n _) Hs).
  - vm_compute. reflexivity.
Qed.

(** ** Units that differ in position only

    Nothing in [get], [unreadc] or [readc] reads [line] or [column]: two
    stacks whose top units agree on every other field deliver the same
    characters. *)

Lemma pos_rel_refl f : pos_rel f f.
Proof. reflexivity. Qed.

Lemma pos_rel_sym f g : pos_rel f g -> pos_rel g f.
Proof. unfold pos_rel; auto. Qed.

Lemma pos_rel_trans f g h : pos_rel f g -> pos_rel g h -> pos_rel f h.
Proof. unfold pos_rel; congruence. Qed.

Lemma pos_rel_fields f g :
  pos_rel f g <->
  file f = file g /\ p f = p g /\ name f = name g /\ last f = last g /\
  buf f = buf g /\ autopop f = autopop g.
Proof.
  destruct f, g; unfold pos_rel, unplace; simpl. split.
  - intros H; inversion H; auto 10.
  - intros (-> & -> & -> & -> & -> & ->); reflexivity.
Qed.

Lemma pos_rel_advance c d f : pos_rel (advance c f) (advance d f).
Proof.
  unfold advance. destruct (c =? NL), (d =? NL); reflexivity.
Qed.

Lemma pos_rel_advance_l c f : pos_rel (advance c f) f.
Proof. unfold advance. destruct (c =? NL); reflexivity. Qed.

Lemma pos_rel_retreat_l c f : pos_rel (retreat c f) f.
Proof. unfold retreat. destruct (c =? NL); reflexivity. Qed.

Lemma pos_rel_set_buf b f g :
  pos_rel f g -> pos_rel (set_buf b f) (set_buf b g).
Proof.
  rewrite !pos_rel_fields. simpl. tauto.
Qed.

Lemma pos_rel_fetch f g :
  pos_rel f g ->
  fst (fetch f) = fst (fetch g) /\ pos_rel (snd (fetch f)) (snd (fetch g)).
Proof.
  intros H. apply pos_rel_fields in H.
  destruct f as [fl pp nm ln col lst bf ap],
           g as [fl' pp' nm' ln' col' lst' bf' ap'].
  simpl in H. destruct H as (<- & <- & <- & <- & <- & <-).
  unfold fetch, readc_file, readc_string, at_eof, getc. simpl.
  destruct bf as [| c0 bf]; [| split; reflexivity].
  destruct fl as [[| b0 [| b1 s]] |]; [ | | | destruct pp as [| c [| c2 r]]];
    simpl; break_all; split; reflexivity.
Qed.

Lemma pos_rel_getf f g :
  pos_rel f g ->
  fst (getf f) = fst (getf g) /\ pos_rel (snd (getf f)) (snd (getf g)).
Proof.
  intros H. destruct (pos_rel_fetch f g H) as [Hc Hr].
  unfold getf; cbn [fst snd]. rewrite <- Hc. split; [reflexivity |].
  eapply pos_rel_trans; [apply pos_rel_advance_l |].
  eapply pos_rel_trans; [exact Hr |]. apply pos_rel_sym, pos_rel_advance_l.
Qed.

Lemma pos_rel_buf f g : pos_rel f g -> buf f = buf g.
Proof. intros H; apply pos_rel_fields in H; tauto. Qed.

Lemma pos_rel_autopop f g : pos_rel f g -> autopop f = autopop g.
Proof. intros H; apply pos_rel_fields in H; tauto. Qed.

Lemma pos_rel_unread c f g :
  pos_rel f g ->
  pos_rel (retreat c (set_buf (c :: buf f) f))
          (retreat c (set_buf (c :: buf g) g)).
Proof.
  intros H. rewrite (pos_rel_buf _ _ H).
  eapply pos_rel_trans; [apply pos_rel_retreat_l |].
  eapply pos_rel_trans; [| apply pos_rel_sym, pos_rel_retreat_l].
  apply pos_rel_set_buf; assumption.
Qed.

Lemma same_input_refl fs : same_input fs fs.
Proof. apply alike_refl. Qed.

Lemma same_input_cons f g rest :
  pos_rel f g -> same_input (f :: rest) (g :: rest).
Proof. apply alike_cons. Qed.

Lemma same_input_sym fs gs : same_input fs gs -> same_input gs fs.
Proof.
  intros [-> | (f & g & rest & -> & -> & H)];
    [apply same_input_refl | apply same_input_cons, pos_rel_sym, H].
Qed.

Lemma same_input_trans fs gs hs :
  same_input fs gs -> same_input gs hs -> same_input fs hs.
Proof.
  intros [-> | (f & g & rest & -> & -> & H)]; [auto |].
  intros [<- | (f' & g' & rest' & E & -> & H')].
  - apply same_input_cons, H.
  - inversion E; subst. apply same_input_cons.
    eapply pos_rel_trans; eassumption.
Qed.

Lemma get_same_input fs gs :
  same_input fs gs -> sim pos_rel (get fs) (get gs).
Proof.
  intros [-> | (f & g & rest & -> & -> & H)]; [apply sim_refl |].
  rewrite !get_cons. destruct (pos_rel_getf f g H) as [Hc Hr].
  simpl. split; [exact Hc | apply alike_cons, Hr].
Qed.

Lemma unreadc_same_input cap c fs gs :
  same_input fs gs -> sim pos_rel (unreadc cap c fs) (unreadc cap c gs).
Proof.
  apply unreadc_sim; [apply pos_rel_buf | apply pos_rel_unread].
Qed.

Lemma readc_same_input cap fs gs :
  same_input fs gs -> sim pos_rel (readc cap fs) (readc cap gs).
Proof.
  apply readc_sim;
    [apply pos_rel_autopop | apply pos_rel_buf | apply pos_rel_getf
    | apply pos_rel_unread].
Qed.

Lemma readn_same_input cap n fs gs :
  same_input fs gs -> sim pos_rel (readn cap n fs) (readn cap n gs).
Proof.
  apply readn_sim;
    [apply pos_rel_autopop | apply pos_rel_buf | apply pos_rel_getf
    | apply pos_rel_unread].
Qed.

(** ** Reading again what was unread *)

Lemma getf_unread c f :
  fst (getf (retreat c (set_buf (c :: buf f) f))) = c /\
  pos_rel (snd (getf (retreat c (set_buf (c :: buf f) f)))) f.
Proof.
  unfold getf, fetch, retreat, advance.
  destruct (c =? NL) eqn:E; simpl; rewrite ?E; split; try reflexivity;
    apply pos_rel_fields; destruct f; simpl; auto 10.
Qed.

Lemma peek_ok_same_input cap fs gs :
  same_input fs gs -> peek_ok cap fs -> peek_ok cap gs.
Proof.
  intros H (c2 & fs2 & fs3 & Hg & Hn & Hu & Hs).
  pose proof (get_same_input _ _ H) as Hg'. rewrite Hg in Hg'.
  destruct (get gs) as [[c2' gs2] | |] eqn:Eg; simpl in Hg'; try tauto.
  destruct Hg' as [<- H2].
  pose proof (unreadc_same_input cap c2 _ _ H2) as Hu'. rewrite Hu in Hu'.
  destruct (unreadc cap c2 gs2) as [[[] gs3] | |] eqn:Eu; simpl in Hu';
    try tauto.
  destruct Hu' as [_ H3].
  exists c2, gs2, gs3.
  split; [exact Eg |]. split; [exact Hn |]. split; [exact Eu |].
  eapply same_input_trans; [apply same_input_sym; exact H3 |].
  eapply same_input_trans; [exact Hs | exact H].
Qed.

Lemma unreadc_inv cap c fs us :
  0 <= c -> unreadc cap c fs = Ok (tt, us) ->
  exists f rest,
    fs = f :: rest /\ (buflen f < cap)%nat /\
    us = retreat c (set_buf (c :: buf f) f) :: rest.
Proof.
  intros Hc Hu. destruct fs as [| f rest].
  - unfold unreadc in Hu. destruct (c <? 0) eqn:E; [zbool; lia |]. discriminate.
  - rewrite unreadc_cons in Hu by assumption.
    destruct (buflen f <? cap)%nat eqn:E; [| discriminate].
    apply Nat.ltb_lt in E. inversion Hu. eauto.
Qed.

Lemma get_unreadc cap c fs us :
  0 <= c -> unreadc cap c fs = Ok (tt, us) ->
  exists fs', get us = Ok (c, fs') /\ same_input fs' fs.
Proof.
  intros Hc Hu.
  destruct (unreadc_inv _ _ _ _ Hc Hu) as (f & rest & -> & _ & ->).
  rewrite get_cons. destruct (getf_unread c f) as [H1 H2].
  rewrite H1. eexists; split; [reflexivity |].
  apply same_input_cons, H2.
Qed.

(** After [unreadc] of a character that is not a newline, the look-ahead
    of [readc] finds that character and pushes it back again. *)
Lemma peek_ok_unreadc cap c fs us :
  0 <= c -> c <> NL -> unreadc cap c fs = Ok (tt, us) -> peek_ok cap us.
Proof.
  intros Hc Hn Hu.
  destruct (get_unreadc _ _ _ _ Hc Hu) as (fs' & Hg & Hs).
  pose proof (unreadc_same_input cap c _ _ Hs) as Hu'. rewrite Hu in Hu'.
  destruct (unreadc cap c fs') as [[[] us'] | |] eqn:E; simpl in Hu'; try tauto.
  exists c, fs', us'.
  split; [exact Hg |]. split; [exact Hn |]. split; [exact E |].
  exact (proj2 Hu').
Qed.

Lemma readc_unreadc_plain cap c fs us :
  0 <= c -> c <> BACKSLASH -> unreadc cap c fs = Ok (tt, us) ->
  exists fs', readc cap us = Ok (c, fs') /\ same_input fs' fs.
Proof.
  intros Hc Hb Hu.
  destruct (unreadc_inv _ _ _ _ Hc Hu) as (f & rest & -> & _ & ->).
  rewrite readc_eq. destruct (getf_unread c f) as [H1 H2].
  destruct (getf _) as [c' f']; cbn [fst snd] in *. subst c'.
  destruct (c =? EOF) eqn:E1; [zbool; unfold EOF in *; lia |].
  destruct (negb (c =? BACKSLASH)) eqn:E2; [| zbool; congruence].
  eexists; split; [reflexivity |]. apply same_input_cons, H2.
Qed.

Lemma readc_unreadc_backslash cap fs us :
  peek_ok cap fs -> unreadc cap BACKSLASH fs = Ok (tt, us) ->
  exists fs', readc cap us = Ok (BACKSLASH, fs') /\ same_input fs' fs.
Proof.
  intros Hp Hu.
  destruct (unreadc_inv cap BACKSLASH fs us ltac:(unfold BACKSLASH; lia) Hu)
    as (f & rest & -> & _ & ->).
  rewrite readc_eq. destruct (getf_unread BACKSLASH f) as [H1 H2].
  destruct (getf _) as [c' f']; cbn [fst snd] in *. subst c'.
  change (BACKSLASH =? EOF) with false.
  change (negb (BACKSLASH =? BACKSLASH)) with false. cbv iota.
  assert (Hp' : peek_ok cap (f' :: rest)).
  { eapply peek_ok_same_input; [| exact Hp].
    apply same_input_sym, same_input_cons, H2. }
  destruct Hp' as (c2 & fs2 & fs3 & Hg & Hn & Hu2 & Hs).
  rewrite get_cons in Hg.
  destruct (getf f') as [c2' f2]; cbn [fst snd] in Hg.
  injection Hg as <- <-.
  apply Z.eqb_neq in Hn. rewrite Hn, Hu2.
  eexists; split; [reflexivity |].
  eapply same_input_trans; [exact Hs |]. apply same_input_cons, H2.
Qed.

(** ** Well-formed units *)

Lemma wf_file_getf f : wf_file f -> wf_file (snd (getf f)).
Proof.
  destruct f as [fl pp nm ln col lst bf ap].
  unfold wf_file, getf, fetch, readc_file, readc_string, advance, getc.
  simpl. intros [Hb Hp].
  destruct bf as [| c0 bf];
    [destruct fl as [[| b0 [| b1 s]] |];
       [ | | | destruct pp as [| c [| c2 r]]] |];
    simpl; break_all; simpl; split;
    repeat match goal with
    | H : Forall _ (_ :: _) |- _ => inversion H; subst; clear H
    end; auto.
Qed.

Lemma wf_file_unread c f :
  wf_file f -> 0 <= c -> wf_file (retreat c (set_buf (c :: buf f) f)).
Proof.
  unfold wf_file, retreat. intros [Hb Hp] Hc.
  destruct (c =? NL); simpl; split; auto; constructor; auto.
Qed.

(** A negative character delivered by a well-formed unit is [EOF], and
    the unit is exhausted from then on. *)
Lemma getf_neg f :
  wf_file f -> fst (getf f) < 0 ->
  fst (getf f) = EOF /\ exhausted (snd (getf f)) = true /\
  last (snd (getf f)) = EOF.
Proof.
  destruct f as [fl pp nm ln col lst bf ap].
  unfold wf_file, getf, fetch, readc_file, readc_string, advance, getc,
    exhausted, at_end, at_eof, nonneg.
  simpl. intros [Hb Hp].
  destruct bf as [| c0 bf];
    [destruct fl as [[| b0 [| b1 s]] |];
       [ | | | destruct pp as [| c [| c2 r]]] |];
    simpl;
    try pose proof (byte_val_range b0);
    repeat match goal with
    | H : Forall _ (_ :: _) |- _ => inversion H; subst; clear H
    end;
    break_all; simpl; zbool; unfold EOF, NL, CR in *; intros; try lia;
    repeat split; try reflexivity; try lia.
Qed.

Lemma wf_readc_loop cap n : forall fs c fs',
  wf fs -> readc_loop cap n fs = Ok (c, fs') -> wf fs'.
Proof.
  unfold wf.
  induction n as [| n IH]; intros fs c fs' Hwf Hr; [discriminate |].
  destruct fs as [| f rest]; [discriminate |].
  rewrite readc_loop_cons in Hr. inversion Hwf as [| ? ? Hf Hrest]; subst.
  pose proof (wf_file_getf f Hf) as Hf1.
  destruct (getf f) as [c1 f1]; cbn [fst snd] in *.
  destruct (c1 =? EOF).
  { destruct (autopop f); [eauto |]. inversion Hr; subst. auto. }
  destruct (negb (c1 =? BACKSLASH)).
  { inversion Hr; subst. auto. }
  pose proof (wf_file_getf f1 Hf1) as Hf2.
  destruct (getf f1) as [c2 f2]; cbn [fst snd] in *.
  destruct (c2 =? NL); [eapply IH; [| exact Hr]; auto |].
  destruct (Z.lt_ge_cases c2 0) as [Hneg | Hpos].
  - rewrite unreadc_neg in Hr by assumption. inversion Hr; subst. auto.
  - rewrite unreadc_cons in Hr by assumption.
    destruct (buflen f2 <? cap)%nat; [| discriminate].
    inversion Hr; subst. constructor; [| assumption].
    apply wf_file_unread; assumption.
Qed.

Lemma wf_readc cap fs c fs' : wf fs -> readc cap fs = Ok (c, fs') -> wf fs'.
Proof. apply wf_readc_loop. Qed.

(** When [readc] returns a backslash, it has looked at the next character,
    found it not to be a newline, and pushed it back. *)
Lemma readc_loop_peek cap n : forall fs fs',
  wf fs -> readc_loop cap n fs = Ok (BACKSLASH, fs') -> peek_ok cap fs'.
Proof.
  unfold wf.
  induction n as [| n IH]; intros fs fs' Hwf Hr; [discriminate |].
  destruct fs as [| f rest]; [discriminate |].
  rewrite readc_loop_cons in Hr. inversion Hwf as [| ? ? Hf Hrest]; subst.
  pose proof (wf_file_getf f Hf) as Hf1.
  destruct (getf f) as [c1 f1]; cbn [fst snd] in *.
  destruct (c1 =? EOF) eqn:E1.
  { destruct (autopop f); [eauto |]. inversion Hr; subst. discriminate. }
  destruct (negb (c1 =? BACKSLASH)) eqn:E2.
  { inversion Hr; subst. discriminate. }
  pose proof (wf_file_getf f1 Hf1) as Hf2.
  pose proof (getf_neg f1 Hf1) as Hneg1.
  destruct (getf f1) as [c2 f2]; cbn [fst snd] in *.
  destruct (c2 =? NL) eqn:E3; [eapply IH; [| exact Hr]; auto |].
  zbool.
  destruct (Z.lt_ge_cases c2 0) as [Hneg | Hpos].
  - rewrite unreadc_neg in Hr by assumption. inversion Hr; subst.
    destruct (Hneg1 Hneg) as (-> & Hex & Hlast).
    exists EOF, (snd (getf f2) :: rest), (snd (getf f2) :: rest).
    rewrite get_cons, (getf_exhausted f2 Hex). cbn [fst snd].
    split; [reflexivity |]. split; [discriminate |].
    split; [apply unreadc_neg; reflexivity |].
    apply same_input_cons, pos_rel_fields. simpl. rewrite Hlast. auto 10.
  - destruct (unreadc cap c2 (f2 :: rest)) as [[[] fs3] | |] eqn:Eu;
      try discriminate.
    inversion Hr; subst.
    eapply peek_ok_unreadc; [exact Hpos | exact E3 | exact Eu].
Qed.

Lemma unread_list_app cap l1 : forall l2 fs,
  unread_list cap (l1 ++ l2) fs =
  (unread_list cap l1 ;;; unread_list cap l2) fs.
Proof.
  induction l1 as [| c l1 IH]; intros l2 fs; [reflexivity |].
  cbn [app unread_list]. unfold bind.
  destruct (unreadc cap c fs) as [[[] fs1] | |]; try reflexivity.
  rewrite IH. reflexivity.
Qed.

Lemma splice_free_cons c cs :
  splice_free (c :: cs) = true ->
  splice_free cs = true /\
  (c = BACKSLASH -> match cs with c2 :: _ => c2 <> NL | [] => True end).
Proof.
  destruct cs as [| c2 cs']; [simpl; auto |].
  cbn [splice_free]. intros H. apply andb_true_iff in H. destruct H as [H1 H2].
  split; [exact H2 |]. intros ->. apply negb_true_iff in H1.
  change (BACKSLASH =? BACKSLASH) with true in H1. simpl in H1.
  apply Z.eqb_neq; assumption.
Qed.

(** Characters pushed back in the reverse of the order in which they are
    to be read are read again as they are, provided that no backslash among
    them is followed by a newline. *)
Lemma reread cap : forall cs fs1 fs2,
  Forall nonneg cs ->
  splice_free cs = true ->
  (List.last cs 0 = BACKSLASH -> peek_ok cap fs1) ->
  unread_list cap (rev cs) fs1 = Ok (tt, fs2) ->
  exists fs', readn cap (length cs) fs2 = Ok (cs, fs') /\ same_input fs' fs1.
Proof.
  induction cs as [| c cs IH]; intros fs1 fs2 Hnn Hsf Hlast Hu.
  - simpl in Hu. inversion Hu; subst. exists fs2.
    split; [reflexivity | apply same_input_refl].
  - inversion Hnn as [| ? ? Hc Hnn']; subst. unfold nonneg in Hc.
    destruct (splice_free_cons _ _ Hsf) as [Hsf' Hnext].
    cbn [rev] in Hu. rewrite unread_list_app in Hu. unfold bind in Hu.
    destruct (unread_list cap (rev cs) fs1) as [[[] mid] | |] eqn:Hmid;
      try discriminate.
    cbn [unread_list] in Hu. unfold bind, ret in Hu.
    destruct (unreadc cap c mid) as [[[] us] | |] eqn:Huc; try discriminate.
    inversion Hu; subst us. clear Hu.
    assert (Hlast' : List.last cs 0 = BACKSLASH -> peek_ok cap fs1).
    { intros H. apply Hlast. destruct cs; [discriminate H | exact H]. }
    destruct (IH fs1 mid Hnn' Hsf' Hlast' Hmid) as (fs' & Hrn & Hsame).
    assert (Hfirst :
              exists gs, readc cap fs2 = Ok (c, gs) /\ same_input gs mid).
    { destruct (Z.eq_dec c BACKSLASH) as [-> | Hnb].
      - apply readc_unreadc_backslash; [| exact Huc].
        destruct cs as [| c2 cs'].
        + simpl in Hmid. inversion Hmid; subst. apply Hlast. reflexivity.
        + cbn [rev] in Hmid. rewrite unread_list_app in Hmid.
          unfold bind in Hmid.
          destruct (unread_list cap (rev cs') fs1) as [[[] m2] | |];
            try discriminate.
          cbn [unread_list] in Hmid. unfold bind, ret in Hmid.
          destruct (unreadc cap c2 m2) as [[[] m3] | |] eqn:Em;
            try discriminate.
          inversion Hmid; subst m3.
          inversion Hnn' as [| ? ? Hc2 _]; subst.
          eapply peek_ok_unreadc;
            [exact Hc2 | exact (Hnext eq_refl) | exact Em].
      - apply readc_unreadc_plain with (fs := mid); assumption. }
    destruct Hfirst as (gs & Hrc & Hgs).
    cbn [length readn]. unfold bind at 1. rewrite Hrc.
    pose proof (readn_same_input cap (length cs) _ _ Hgs) as Hsim.
    rewrite Hrn in Hsim. unfold bind, ret.
    destruct (readn cap (length cs) gs) as [[cs' gs'] | |]; simpl in Hsim;
      try tauto.
    destruct Hsim as [<- Hsim]. exists gs'. split; [reflexivity |].
    eapply same_input_trans; [exact Hsim | exact Hsame].
Qed.

(** ** Reading, unreading and reading again *)

Lemma readn_length cap n : forall fs cs fs1,
  readn cap n fs = Ok (cs, fs1) -> length cs = n.
Proof.
  induction n as [| n IH]; intros fs cs fs1 H.
  - inversion H; reflexivity.
  - cbn [readn] in H. unfold bind, ret in H.
    destruct (readc cap fs) as [[c gs] | |]; try discriminate.
    destruct (readn cap n gs) as [[cs' gs'] | |] eqn:E; try discriminate.
    inversion H; subst. simpl. f_equal. eapply IH; eassumption.
Qed.

Lemma readn_peek cap n : forall fs cs fs1,
  wf fs -> readn cap n fs = Ok (cs, fs1) ->
  List.last cs 0 = BACKSLASH -> peek_ok cap fs1.
Proof.
  induction n as [| n IH]; intros fs cs fs1 Hwf H Hl.
  - inversion H; subst. discriminate.
  - cbn [readn] in H. unfold bind, ret in H.
    destruct (readc cap fs) as [[c gs] | |] eqn:Hc; try discriminate.
    destruct (readn cap n gs) as [[cs' gs'] | |] eqn:E; try discriminate.
    inversion H; subst. clear H.
    destruct cs' as [| c' cs''].
    + destruct n; [| apply readn_length in E; discriminate].
      inversion E; subst. simpl in Hl. subst c.
      unfold readc in Hc. eapply readc_loop_peek; eassumption.
    + eapply IH; [| exact E | exact Hl]. eapply wf_readc; eassumption.
Qed.


Lemma dec_inc x : int_range x -> dec (inc x) = x.
Proof.
  unfold dec, inc. intros Hx.
  destruct (Z.eq_dec x (2 ^ 31 - 1)) as [-> | Hne]; [reflexivity |].
  rewrite (wrap_int_id (x + 1)) by (unfold int_range in *; lia).
  replace (x + 1 - 1) with x by lia. apply wrap_int_id; assumption.
Qed.

Lemma iter_inc_range n x : int_range x -> int_range (Nat.iter n inc x).
Proof.
  destruct n; [auto |]. intros _. simpl. apply wrap_int_range.
Qed.

Lemma iter_dec_inc n : forall x,
  int_range x -> Nat.iter n dec (Nat.iter n inc x) = x.
Proof.
  induction n as [| n IH]; intros x Hx; [reflexivity |].
  rewrite (Nat.iter_succ_r n Z dec).
  change (Nat.iter (S n) inc x) with (inc (Nat.iter n inc x)).
  rewrite dec_inc by (apply iter_inc_range; assumption).
  apply IH; assumption.
Qed.

Lemma getf_place f :
  fst (getf f) <> NL ->
  name (snd (getf f)) = name f /\ line (snd (getf f)) = line f /\
  column (snd (getf f)) = inc (column f).
Proof.
  destruct f as [fl pp nm ln col lst bf ap].
  unfold getf, fetch, readc_file, readc_string, advance, getc, inc.
  simpl.
  destruct bf as [| c0 bf];
    [destruct fl as [[| b0 [| b1 s]] |];
       [ | | | destruct pp as [| c [| c2 r]]] |];
    simpl; break_all; simpl; zbool; intros; try tauto; auto.
Qed.

Lemma getn_place : forall cs f rest fs1,
  getn (length cs) (f :: rest) = Ok (cs, fs1) ->
  Forall (fun c => c <> NL) cs ->
  exists f1, fs1 = f1 :: rest /\ name f1 = name f /\ line f1 = line f /\
             column f1 = Nat.iter (length cs) inc (column f).
Proof.
  induction cs as [| c cs IH]; intros f rest fs1 H Hnl.
  - inversion H; subst. exists f. auto.
  - cbn [length getn] in H. unfold bind at 1 in H. rewrite get_cons in H.
    unfold bind, ret in H.
    destruct (getn (length cs) (snd (getf f) :: rest)) as [[cs' gs] | |] eqn:E;
      try discriminate.
    inversion H; subst. clear H. inversion Hnl as [| ? ? Hc Hnl']; subst.
    destruct (getf_place f Hc) as (Hn & Hln & Hcol).
    destruct (IH _ _ _ E Hnl') as (f1 & -> & Hn1 & Hl1 & Hc1).
    exists f1. split; [reflexivity |]. cbn [length].
    rewrite Nat.iter_succ_r. repeat split; congruence.
Qed.

Lemma unread_list_place cap : forall l f rest fs2,
  unread_list cap l (f :: rest) = Ok (tt, fs2) ->
  Forall (fun c => 0 <= c /\ c <> NL) l ->
  exists f2, fs2 = f2 :: rest /\ name f2 = name f /\ line f2 = line f /\
             column f2 = Nat.iter (length l) dec (column f).
Proof.
  induction l as [| c l IH]; intros f rest fs2 H Hl.
  - inversion H; subst. exists f. auto.
  - inversion Hl as [| ? ? [Hc Hn] Hl']; subst.
    cbn [unread_list] in H. unfold bind in H.
    rewrite unreadc_cons in H by assumption.
    destruct (buflen f <? cap)%nat; [| discriminate].
    destruct (IH _ _ _ H Hl') as (f2 & -> & Hn2 & Hl2 & Hc2).
    exists f2. split; [reflexivity |]. cbn [length].
    rewrite Nat.iter_succ_r. unfold retreat in *.
    apply Z.eqb_neq in Hn. rewrite Hn in *. simpl in *. auto.
Qed.

Lemma position_restored cap cs fs fs1 fs2 :
  ints fs ->
  getn (length cs) fs = Ok (cs, fs1) ->
  Forall nonneg cs ->
  Forall (fun c => c <> NL) cs ->
  unread_list cap (rev cs) fs1 = Ok (tt, fs2) ->
  chars (input_position fs2) = chars (input_position fs).
Proof.
  intros Hint Hg Hnn Hnl Hu.
  destruct fs as [| f rest].
  { destruct cs; [| discriminate]. inversion Hg; subst.
    inversion Hu; subst. reflexivity. }
  destruct (getn_place _ _ _ _ Hg Hnl) as (f1 & -> & Hn1 & Hl1 & Hc1).
  assert (Hrev : Forall (fun c => 0 <= c /\ c <> NL) (rev cs)).
  { apply Forall_rev. rewrite Forall_forall in *. intros x Hx.
    split; [apply Hnn | apply Hnl]; assumption. }
  destruct (unread_list_place _ _ _ _ _ Hu Hrev) as (f2 & -> & Hn2 & Hl2 & Hc2).
  rewrite !input_position_cons. rewrite length_rev in Hc2.
  inversion Hint as [| ? ? [_ Hcol] _]; subst.
  rewrite Hn2, Hl2, Hc2, Hn1, Hl1, Hc1, iter_dec_inc by assumption.
  reflexivity.
Qed.

(** Two reads, two unreads, the position, and two reads again. *)
Example roundtrip_trace :
  let fs := [make_file_string [BACKSLASH; BACKSLASH; NL; NL] false] in
  chars ((cs <- readn 3 2 ;;
          unread_list 3 (rev cs) ;;;
          pos <- input_position ;;
          cs' <- readn 3 2 ;;
          ret (cs, pos, cs')) fs) =
  Ok ([BACKSLASH; NL], "(null):2:-1"%string, [EOF; EOF]) /\
  chars (input_position fs) = Ok "(null):1:0"%string.
Proof. split; vm_compute; reflexivity. Qed.

(** C1, counterexample.  With a [buf] of three elements, two reads of the
    string backslash, backslash, newline, newline return a backslash and a
    newline (the second backslash is spliced away with the first newline).
    Unread in reverse order and read again, they are a backslash followed by
    a newline: the pair is spliced away and the two reads return [EOF]. *)
Lemma roundtrip_claim_refuted : ~ roundtrip_claim 3.
Proof.
  intros H.
  edestruct (H [make_file_string [BACKSLASH; BACKSLASH; NL; NL] false] 2%nat)
    as (fs2 & Hu & Hc & _); [lia | vm_compute; reflexivity |].
  vm_compute in Hu. inversion Hu; subst. vm_compute in Hc. discriminate.
Qed.

(** C1, amended.  Let [n] reads on a well-formed stack return the
    characters [cs], none of them negative and no backslash among them
    immediately followed by a newline, and let the [n] calls of [unreadc], in
    reverse order, fail no assertion.  Then [n] further reads return [cs]
    again and leave the stack as the first reads left it, up to the position
    of its top unit.  If moreover the reads left the stack as [n] calls of
    [get] returning [cs] leave it (no splice, no automatic pop), no character
    of [cs] is a newline, and line and column were [int] values, then
    [input_position] after the unreads is [input_position] before the
    reads. *)
Theorem unread_read_again cap fs cs fs1 fs2 :
  wf fs ->
  readn cap (length cs) fs = Ok (cs, fs1) ->
  Forall nonneg cs ->
  splice_free cs = true ->
  unread_list cap (rev cs) fs1 = Ok (tt, fs2) ->
  (exists fs',
     readn cap (length cs) fs2 = Ok (cs, fs') /\ same_input fs' fs1) /\
  (ints fs ->
   getn (length cs) fs = Ok (cs, fs1) ->
   Forall (fun c => c <> NL) cs ->
   chars (input_position fs2) = chars (input_position fs)).
Proof.
  intros Hwf Hr Hnn Hsf Hu. split.
  - apply reread; try assumption.
    eapply readn_peek; eassumption.
  - intros Hint Hg Hnl. eapply position_restored; eassumption.
Qed.

(** * Further properties *)

(** ** The characters a unit has yet to deliver *)

Lemma closing_cons lst c t :
  c <> EOF -> closing lst (c :: t) = c :: closing c t.
Proof.
  intros Hc. unfold closing.
  destruct t as [| c2 t'].
  - cbn [List.last app]. apply Z.eqb_neq in Hc. rewrite Hc, orb_false_r.
    destruct (c =? NL); reflexivity.
  - change (List.last (c :: c2 :: t') 0) with (List.last (c2 :: t') 0).
    destruct (List.last (c2 :: t') 0 =? NL); reflexivity.
Qed.

(** One [fetch] from the backing stream, against [crlf (source f)]. *)
Lemma fetch_source f :
  buf f = [] ->
  match crlf (source f) with
  | [] =>
      fst (fetch f) = at_eof f /\
      crlf (source (snd (fetch f))) = []
  | x :: t =>
      fst (fetch f) = x /\
      crlf (source (snd (fetch f))) = t
  end /\
  last (snd (fetch f)) = fst (fetch f) /\
  buf (snd (fetch f)) = [].
Proof.
  destruct f as [fl pp nm ln col lst bf ap]. simpl. intros ->.
  unfold fetch, source. cbn [buf file p].
  destruct fl as [s |].
  - unfold readc_file. destruct s as [| b0 s1]; cbn [getc map crlf].
    + cbn; repeat split.
    + pose proof (byte_val_range b0) as Hr.
      destruct (byte_val b0 =? EOF) eqn:E1; [zbool; unfold EOF in *; lia |].
      destruct (byte_val b0 =? CR) eqn:E2.
      * destruct s1 as [| b1 s2]; cbn [getc map].
        -- cbn; repeat split.
        -- destruct (byte_val b1 =? NL) eqn:E3; cbn [negb].
           ++ cbn; repeat split.
           ++ unfold ungetc. pose proof (byte_val_range b1) as Hr1.
              destruct (byte_val b1 =? EOF) eqn:E4;
                [zbool; unfold EOF in *; lia |].
              rewrite byte_of_int_val. cbn; repeat split.
      * cbn; repeat split.
  - unfold readc_string. cbn [p].
    destruct pp as [| c r]; [cbn; repeat split |].
    destruct (c =? 0) eqn:E0;
      [cbn; rewrite E0; cbn; repeat split |].
    destruct (c =? CR) eqn:E1.
    + destruct r as [| c2 r'];
        [cbn; rewrite E0; cbn; rewrite E1; repeat split |].
      destruct (c2 =? NL) eqn:E3.
      * assert (E5 : (c2 =? 0) = false) by (zbool; subst; reflexivity).
        cbn. rewrite E0, E5. cbn. rewrite E1, E3. repeat split.
      * destruct (c2 =? 0) eqn:E5.
        -- cbn. rewrite E0, !E5. cbn. rewrite E1. repeat split.
        -- cbn. rewrite E0, !E5. cbn. rewrite E1, E3. repeat split.
    + cbn. rewrite E0. cbn. rewrite E1. repeat split.
Qed.

Lemma until_nul_nonneg s : Forall nonneg s -> Forall nonneg (until_nul s).
Proof.
  induction 1 as [| c r Hc Hr IH]; cbn [until_nul]; [constructor |].
  destruct (c =? 0); constructor; assumption.
Qed.

Lemma crlf_nonneg_bounded n : forall s,
  (length s <= n)%nat -> Forall nonneg s -> Forall nonneg (crlf s).
Proof.
  assert (Hnl : nonneg NL) by (unfold nonneg, NL; lia).
  induction n as [| n IH]; intros s Hn Hs.
  - destruct s; [constructor | simpl in Hn; lia].
  - destruct s as [| c r]; [constructor |]. simpl in Hn. cbn [crlf].
    inversion Hs as [| ? ? Hc Hr]; subst.
    destruct (c =? CR).
    + destruct r as [| c2 r']; [repeat constructor; assumption |].
      simpl in Hn. inversion Hr; subst.
      destruct (c2 =? NL); constructor; try assumption;
        apply IH; try assumption; simpl; lia.
    + constructor; [assumption | apply IH; [lia | assumption]].
Qed.

Lemma source_nonneg f : wf_file f -> Forall nonneg (crlf (source f)).
Proof.
  intros [_ Hp]. apply (crlf_nonneg_bounded (length (source f))); [lia |].
  unfold source. destruct (file f) as [s |].
  - apply Forall_forall. intros x Hx. apply in_map_iff in Hx.
    destruct Hx as (b & <- & _). apply byte_val_range.
  - apply until_nul_nonneg; assumption.
Qed.

Lemma pending_advance c f : pending (advance c f) = pending f.
Proof. unfold advance; destruct (c =? NL); reflexivity. Qed.

Lemma pending_unread c f :
  pending (retreat c (set_buf (c :: buf f) f)) = c :: pending f.
Proof. unfold retreat; destruct (c =? NL); reflexivity. Qed.

(** [pending] is what [get] delivers: its head is the next character, and
    [EOF] comes when it is empty. *)
Lemma getf_pending f :
  wf_file f ->
  match pending f with
  | [] => fst (getf f) = EOF /\ pending (snd (getf f)) = []
  | c :: t => fst (getf f) = c /\ pending (snd (getf f)) = t
  end.
Proof.
  intros Hwf. unfold getf; cbn [fst snd]. rewrite pending_advance.
  destruct (buf f) as [| c0 b] eqn:Eb.
  - destruct (fetch_source f Eb) as (Hs & Hl & Hb).
    pose proof (source_nonneg f Hwf) as Hnn.
    unfold pending at 1. rewrite Eb. cbn [app].
    unfold pending. rewrite Hb, Hl. cbn [app].
    destruct (crlf (source f)) as [| x t].
    + destruct Hs as [Hc ->]. rewrite Hc. unfold closing, at_eof.
      destruct ((last f =? NL) || (last f =? EOF))%bool; split; reflexivity.
    + destruct Hs as [-> ->]. inversion Hnn as [| ? ? Hx _]; subst.
      rewrite closing_cons by (unfold nonneg, EOF in *; lia).
      split; reflexivity.
  - unfold pending, fetch. rewrite Eb. cbn. split; reflexivity.
Qed.

Lemma pending_nonneg f : wf_file f -> Forall nonneg (pending f).
Proof.
  intros Hwf. unfold pending. apply Forall_app. split; [apply Hwf |].
  pose proof (source_nonneg f Hwf) as Hnn.
  assert (Hnl : nonneg NL) by (unfold nonneg, NL; lia).
  unfold closing. destruct (crlf (source f)) as [| x t].
  - destruct (_ || _)%bool; repeat constructor; assumption.
  - destruct (List.last (x :: t) 0 =? NL); [assumption |].
    apply Forall_app. split; [assumption | repeat constructor; assumption].
Qed.

Lemma splice_plain c t : c <> BACKSLASH -> splice (c :: t) = c :: splice t.
Proof.
  intros Hc. apply Z.eqb_neq in Hc. cbn [splice]. rewrite Hc.
  destruct t; reflexivity.
Qed.

Lemma splice_pair t : splice (BACKSLASH :: NL :: t) = splice t.
Proof. reflexivity. Qed.

Lemma splice_kept c2 t :
  c2 <> NL -> splice (BACKSLASH :: c2 :: t) = BACKSLASH :: splice (c2 :: t).
Proof.
  intros Hc. apply Z.eqb_neq in Hc. cbn [splice].
  change (BACKSLASH =? BACKSLASH) with true. rewrite Hc. reflexivity.
Qed.

Lemma prepend_cons c l r :
  prepend (c :: l) r =
  match prepend l r with
  | Ok cs => Ok (c :: cs)
  | Abort => Abort
  | Timeout => Timeout
  end.
Proof. destruct r; reflexivity. Qed.

Lemma chars_read_all_eq cap fs :
  chars (read_all cap fs) =
  match readc cap fs with
  | Ok (c, fs1) =>
      if c =? EOF then Ok []
      else
        match chars (read_all cap fs1) with
        | Ok cs => Ok (c :: cs)
        | Abort => Abort
        | Timeout => Timeout
        end
  | Abort => Abort
  | Timeout => Timeout
  end.
Proof.
  rewrite read_all_eq at 1.
  destruct (readc cap fs) as [[c fs1] | |]; try reflexivity.
  destruct (c =? EOF); [reflexivity |].
  destruct (read_all cap fs1) as [[cs fs2] | |]; reflexivity.
Qed.

Lemma remaining_cons cap c f f1 rest :
  autopop f1 = autopop f ->
  pending f = c :: pending f1 ->
  c <> BACKSLASH \/ (exists c2 t, pending f1 = c2 :: t /\ c2 <> NL)
    \/ pending f1 = [] ->
  match remaining cap f1 rest with
  | Ok cs => Ok (c :: cs)
  | Abort => Abort
  | Timeout => Timeout
  end = remaining cap f rest.
Proof.
  intros Hap Hp Hc. unfold remaining. rewrite Hap, Hp.
  assert (Hs : splice (c :: pending f1) = c :: splice (pending f1)).
  { destruct Hc as [Hc | [(c2 & t & -> & Hc2) | ->]].
    - apply splice_plain; assumption.
    - destruct (Z.eq_dec c BACKSLASH) as [-> | Hne];
        [apply splice_kept; assumption | apply splice_plain; assumption].
    - reflexivity. }
  rewrite Hs. destruct (autopop f); [| reflexivity].
  rewrite prepend_cons. reflexivity.
Qed.

(** Reading a stack to exhaustion delivers the spliced pending characters
    of the top unit and, if that unit is popped automatically, what reading
    the rest delivers. *)
Lemma read_all_pending cap n : forall f rest,
  (0 < cap)%nat ->
  (length (pending f) <= n)%nat ->
  wf_file f ->
  (buflen f <= cap)%nat ->
  chars (read_all cap (f :: rest)) = remaining cap f rest.
Proof.
  induction n as [| n IH]; intros f rest Hcap Hn Hwf Hb.
  - (* nothing pending *)
    destruct (pending f) as [| c t] eqn:Ep; [| simpl in Hn; lia].
    pose proof (getf_pending f Hwf) as Hg. rewrite Ep in Hg.
    destruct Hg as [Hc Hp1].
    rewrite chars_read_all_eq, readc_eq.
    destruct (getf f) as [c f1]; cbn [fst snd] in *. subst c.
    change (EOF =? EOF) with true. cbv iota.
    unfold remaining. rewrite Ep. cbn [splice].
    destruct (autopop f).
    + rewrite <- chars_read_all_eq. destruct (chars (read_all cap rest));
        reflexivity.
    + reflexivity.
  - pose proof (getf_pending f Hwf) as Hg.
    pose proof (pending_nonneg f Hwf) as Hnn.
    pose proof (wf_file_getf f Hwf) as Hwf1.
    pose proof (buflen_getf f) as Hb1.
    pose proof (autopop_getf f) as Ha1.
    destruct (pending f) as [| c t] eqn:Ep.
    { (* nothing pending *)
      destruct Hg as [Hc Hp1].
      rewrite chars_read_all_eq, readc_eq.
      destruct (getf f) as [c f1]; cbn [fst snd] in *. subst c.
      change (EOF =? EOF) with true. cbv iota.
      unfold remaining. rewrite Ep. cbn [splice].
      destruct (autopop f).
      + rewrite <- chars_read_all_eq. destruct (chars (read_all cap rest));
          reflexivity.
      + reflexivity. }
    destruct Hg as [Hc Hp1]. simpl in Hn.
    pose proof (Forall_inv Hnn) as Hc0. pose proof (Forall_inv_tail Hnn) as Hnt.
    unfold nonneg in Hc0.
    rewrite chars_read_all_eq, readc_eq.
    destruct (getf f) as [c' f1]; cbn [fst snd] in *. subst c'.
    assert (E1 : (c =? EOF) = false) by (apply Z.eqb_neq; unfold EOF; lia).
    rewrite E1.
    destruct (Z.eq_dec c BACKSLASH) as [-> | Hnb].
    + (* a backslash: look ahead *)
      change (negb (BACKSLASH =? BACKSLASH)) with false. cbv iota.
      pose proof (getf_pending f1 Hwf1) as Hg2.
      pose proof (wf_file_getf f1 Hwf1) as Hwf2.
      pose proof (buflen_getf f1) as Hb2.
      pose proof (autopop_getf f1) as Ha2.
      rewrite Hp1 in Hg2.
      destruct (getf f1) as [c2 f2]; cbn [fst snd] in *.
      destruct t as [| x t'].
      * (* the backslash is the last character *)
        destruct Hg2 as [-> Hp2].
        change (EOF =? NL) with false. cbv iota.
        rewrite unreadc_neg by reflexivity.
        change (BACKSLASH =? EOF) with false. cbv iota.
        rewrite (IH f2 rest Hcap) by (rewrite ?Hp2; simpl; lia || assumption).
        apply remaining_cons; [congruence | rewrite Ep, Hp2; reflexivity |].
        right; right. assumption.
      * destruct Hg2 as [-> Hp2].
        destruct (x =? NL) eqn:E3.
        -- (* a splice *)
           zbool; subst x.
           rewrite <- chars_read_all_eq.
           rewrite (IH f2 rest Hcap) by (rewrite ?Hp2; simpl in *; lia || assumption).
           unfold remaining. rewrite Ep, Hp2, splice_pair.
           replace (autopop f2) with (autopop f) by congruence. reflexivity.
        -- (* the character looked at is pushed back *)
           zbool. pose proof (Forall_inv Hnt) as Hx. unfold nonneg in Hx.
           rewrite unreadc_cons by assumption.
           assert (Hlt : (buflen f2 <? cap)%nat = true)
             by (apply Nat.ltb_lt; lia).
           rewrite Hlt.
           change (BACKSLASH =? EOF) with false. cbv iota.
           rewrite (IH _ rest Hcap).
           ++ apply remaining_cons.
              ** rewrite autopop_retreat. simpl. congruence.
              ** rewrite Ep, pending_unread, Hp2. reflexivity.
              ** right; left. exists x, t'. rewrite pending_unread, Hp2.
                 split; [reflexivity | assumption].
           ++ rewrite pending_unread, Hp2. simpl in *. lia.
           ++ apply wf_file_unread; assumption.
           ++ unfold retreat, buflen in *. destruct (x =? NL); simpl; lia.
    + (* any other character *)
      assert (E2 : negb (c =? BACKSLASH) = true)
        by (apply negb_true_iff, Z.eqb_neq; assumption).
      rewrite E2, E1.
      rewrite (IH f1 rest Hcap) by (rewrite ?Hp1; lia || assumption).
      apply remaining_cons;
        [congruence | rewrite Ep, Hp1; reflexivity | left; assumption].
Qed.

Lemma read_all_loop_top cap n : forall f rest cs fs',
  autopop f = false ->
  read_all_loop cap n (f :: rest) = Ok (cs, fs') ->
  exists f', fs' = f' :: rest /\ autopop f' = false.
Proof.
  induction n as [| n IH]; intros f rest cs fs' Hap Hr; [discriminate |].
  cbn [read_all_loop] in Hr. unfold bind at 1 in Hr.
  destruct (readc cap (f :: rest)) as [[c fs1] | |] eqn:Hc; try discriminate.
  unfold readc in Hc.
  destruct (readc_loop_top _ _ _ _ _ _ Hap Hc) as (f1 & -> & Hap1).
  destruct (c =? EOF); [inversion Hr; subst; eauto |].
  unfold bind, ret in Hr.
  destruct (read_all_loop cap n (f1 :: rest)) as [[cs' fs2] | |] eqn:E;
    try discriminate.
  inversion Hr; subst. eapply IH; eassumption.
Qed.

Lemma read_all_remaining cap f rest :
  (0 < cap)%nat -> wf_file f -> (buflen f <= cap)%nat ->
  chars (read_all cap (f :: rest)) = remaining cap f rest.
Proof.
  intros Hcap Hwf Hb.
  apply (read_all_pending cap (length (pending f))); auto.
Qed.

Lemma wf_file_make_file_string s ap :
  Forall nonneg s -> wf_file (make_file_string s ap).
Proof. intros Hs. split; [constructor | exact Hs]. Qed.

Lemma wf_file_make_file s nm ap : wf_file (make_file s nm ap).
Proof. split; constructor. Qed.

(** X1. A string-backed unit alone delivers its string up to the NUL, with
    carriage returns canonicalised, closed by a newline unless it ends in
    one, and with every backslash-newline pair removed. *)
Theorem read_string_spec cap s :
  (0 < cap)%nat ->
  Forall nonneg s ->
  read_string cap s = Ok (splice (closing 0 (crlf (until_nul s)))).
Proof.
  intros Hcap Hs. unfold read_string, bind, push_stream_string, vec_push.
  rewrite read_all_remaining;
    [reflexivity | assumption | apply wf_file_make_file_string, Hs
    | unfold buflen; simpl; lia].
Qed.

(** X2. A file-backed unit alone delivers the bytes of its file, with
    carriage returns canonicalised, closed by a newline unless they end in
    one, and with every backslash-newline pair removed, whatever the
    bytes. *)
Theorem read_file_spec cap s nm :
  (0 < cap)%nat ->
  read_file cap s nm = Ok (splice (closing 0 (crlf (map byte_val s)))).
Proof.
  intros Hcap. unfold read_file, bind, push_stream, vec_push.
  rewrite read_all_remaining;
    [reflexivity | assumption | apply wf_file_make_file
    | unfold buflen; simpl; lia].
Qed.

(** X3. Inclusion is concatenation: reading to exhaustion after
    [insert_stream] delivers the characters of the inserted file, read as a
    unit of its own, and then what reading the stack delivered before the
    insertion; it fails exactly when that reading fails. *)
Theorem insert_stream_spec cap s nm fs :
  (0 < cap)%nat ->
  chars ((insert_stream s nm ;;; read_all cap) fs) =
  prepend (splice (closing 0 (crlf (map byte_val s))))
          (chars (read_all cap fs)).
Proof.
  intros Hcap. unfold bind, insert_stream, vec_push.
  rewrite read_all_remaining;
    [reflexivity | assumption | apply wf_file_make_file
    | unfold buflen; simpl; lia].
Qed.

(** X4. Re-scanning a string leaves the stack as it was: pushing a string,
    reading it to exhaustion and popping it delivers the characters of the
    string and restores the stack, whatever the stack. *)
Theorem rescan_string cap s fs :
  (0 < cap)%nat ->
  Forall nonneg s ->
  (push_stream_string s ;;;
   cs <- read_all cap ;;
   pop_stream ;;;
   ret cs) fs =
  Ok (splice (closing 0 (crlf (until_nul s))), fs).
Proof.
  intros Hcap Hs. unfold bind at 1. unfold push_stream_string, vec_push.
  assert (H : chars (read_all cap (make_file_string s false :: fs)) =
              Ok (splice (closing 0 (crlf (until_nul s))))).
  { rewrite read_all_remaining;
      [reflexivity | assumption | apply wf_file_make_file_string, Hs
      | unfold buflen; simpl; lia]. }
  unfold bind at 1.
  destruct (read_all cap (make_file_string s false :: fs))
    as [[cs fs'] | |] eqn:Hr; try discriminate H.
  unfold read_all in Hr.
  destruct (read_all_loop_top cap _ (make_file_string s false) fs cs fs'
              eq_refl Hr) as (f' & -> & _).
  cbn [chars] in H. inversion H; subst. reflexivity.
Qed.

(** ** Reading a character again, exactly *)

Lemma inc_dec x : int_range x -> inc (dec x) = x.
Proof.
  unfold dec, inc. intros Hx.
  destruct (Z.eq_dec x (- 2 ^ 31)) as [-> | Hne]; [reflexivity |].
  rewrite (wrap_int_id (x - 1)) by (unfold int_range in *; lia).
  replace (x - 1 + 1) with x by lia. apply wrap_int_id; assumption.
Qed.

(** The unit left on top by a call of [readc] that returns a character
    other than a backslash comes out of the position update of [get]. *)
Lemma readc_loop_advanced cap n : forall fs c fs1,
  readc_loop cap n fs = Ok (c, fs1) ->
  c <> BACKSLASH ->
  exists g rest, fs1 = advance c g :: rest.
Proof.
  induction n as [| n IH]; intros fs c fs1 Hr Hc; [discriminate |].
  destruct fs as [| f rest]; [discriminate |].
  rewrite readc_loop_cons in Hr. unfold getf in Hr at 1.
  destruct (fst (fetch f) =? EOF).
  { destruct (autopop f); [eauto |]. inversion Hr; subst. eauto. }
  destruct (negb (fst (fetch f) =? BACKSLASH)) eqn:E2.
  { inversion Hr; subst. eauto. }
  destruct (getf _) as [c2 f2].
  destruct (c2 =? NL); [eauto |].
  zbool. destruct (unreadc cap c2 (f2 :: rest)) as [[[] fs3] | |];
    try discriminate.
  inversion Hr; subst. congruence.
Qed.

Lemma getf_unread_advanced c g :
  getf (retreat c (set_buf (c :: buf (advance c g)) (advance c g))) =
  (c, advance c g).
Proof.
  destruct g as [fl pp nm ln col lst bf ap].
  unfold advance. destruct (c =? NL) eqn:E;
    cbv beta iota delta [set_column set_line set_buf buf fst snd line column
                         file p name last autopop];
    unfold retreat; rewrite E;
    cbv beta iota delta [set_column set_line set_buf buf fst snd line column
                         file p name last autopop];
    unfold getf, fetch;
    cbv beta iota delta [set_column set_line set_buf buf fst snd line column
                         file p name last autopop];
    unfold advance; rewrite E;
    cbv beta iota delta [set_column set_line set_buf buf fst snd line column
                         file p name last autopop].
  - f_equal. f_equal.
    apply (inc_dec (wrap_int (ln + 1))), wrap_int_range.
  - f_equal. f_equal.
    apply (inc_dec (wrap_int (col + 1))), wrap_int_range.
Qed.

(** X5. Peeking is exact: a character other than a backslash that [readc]
    has returned and [unreadc] has taken back is returned by the next
    [readc], which leaves the stack, positions included, exactly as the
    first call left it. *)
Theorem peek_exact cap fs c fs1 fs2 :
  readc cap fs = Ok (c, fs1) ->
  0 <= c ->
  c <> BACKSLASH ->
  unreadc cap c fs1 = Ok (tt, fs2) ->
  readc cap fs2 = Ok (c, fs1).
Proof.
  intros Hr Hc Hb Hu. unfold readc in Hr.
  destruct (readc_loop_advanced _ _ _ _ _ Hr Hb) as (g & rest & ->).
  rewrite unreadc_cons in Hu by assumption.
  destruct (buflen (advance c g) <? cap)%nat; [| discriminate].
  inversion Hu; subst fs2. clear Hu.
  rewrite readc_eq, getf_unread_advanced.
  assert (E1 : (c =? EOF) = false) by (apply Z.eqb_neq; unfold EOF; lia).
  assert (E2 : negb (c =? BACKSLASH) = true)
    by (apply negb_true_iff, Z.eqb_neq; assumption).
  rewrite E1, E2. reflexivity.
Qed.

(** ** What [readc] does to the stack *)

Lemma name_getf f : name (snd (getf f)) = name f.
Proof.
  destruct f as [fl pp nm ln col lst bf ap].
  unfold getf, fetch, readc_file, readc_string, advance, getc. simpl.
  destruct bf as [| c0 bf];
    [destruct fl as [[| b0 [| b1 s]] |];
       [ | | | destruct pp as [| c [| c2 r]]] |];
    simpl; break_all; reflexivity.
Qed.

Lemma name_retreat c f : name (retreat c f) = name f.
Proof. unfold retreat; destruct (c =? NL); reflexivity. Qed.

(** [readc] pops units that are popped automatically, and only these, and
    works on the unit it then finds on top; the units below are not
    touched. *)
Lemma readc_loop_frame cap n : forall fs c fs',
  readc_loop cap n fs = Ok (c, fs') ->
  exists popped f f' rest,
    fs = popped ++ f :: rest /\ fs' = f' :: rest /\
    Forall (fun g => autopop g = true) popped /\
    autopop f' = autopop f /\ name f' = name f.
Proof.
  induction n as [| n IH]; intros fs c fs' Hr; [discriminate |].
  destruct fs as [| f rest]; [discriminate |].
  rewrite readc_loop_cons in Hr.
  pose proof (autopop_getf f) as Ha1. pose proof (name_getf f) as Hn1.
  destruct (getf f) as [c1 f1]; cbn [fst snd] in *.
  assert (Hhere : forall f', autopop f' = autopop f -> name f' = name f ->
            exists popped g g' rest',
              f :: rest = popped ++ g :: rest' /\ f' :: rest = g' :: rest' /\
              Forall (fun g => autopop g = true) popped /\
              autopop g' = autopop g /\ name g' = name g).
  { intros f' H1 H2. exists [], f, f', rest. auto. }
  destruct (c1 =? EOF).
  { destruct (autopop f) eqn:Hap.
    - destruct (IH _ _ _ Hr) as (popped & g & g' & rest' & -> & -> & Hp & Hg).
      exists (f :: popped), g, g', rest'. repeat split; try apply Hg.
      constructor; assumption.
    - inversion Hr; subst. apply Hhere; congruence. }
  destruct (negb (c1 =? BACKSLASH)).
  { inversion Hr; subst. apply Hhere; congruence. }
  pose proof (autopop_getf f1) as Ha2. pose proof (name_getf f1) as Hn2.
  destruct (getf f1) as [c2 f2]; cbn [fst snd] in *.
  destruct (c2 =? NL).
  { destruct (IH _ _ _ Hr) as (popped & g & g' & rest' & E & -> & Hp & Hg1 & Hg2).
    destruct popped as [| p0 popped].
    - cbn [app] in E. inversion E; subst g rest'.
      exists [], f, g', rest. repeat split; try constructor; congruence.
    - cbn [app] in E. inversion E; subst p0 rest.
      inversion Hp as [| ? ? Hp0 Hp']; subst.
      exists (f :: popped), g, g', rest'.
      repeat split; try assumption. constructor; [congruence | assumption]. }
  destruct (Z.lt_ge_cases c2 0) as [Hneg | Hpos].
  - rewrite unreadc_neg in Hr by assumption. inversion Hr; subst.
    apply Hhere; congruence.
  - rewrite unreadc_cons in Hr by assumption.
    destruct (buflen f2 <? cap)%nat; [| discriminate].
    inversion Hr; subst. apply Hhere.
    + rewrite autopop_retreat. simpl. congruence.
    + rewrite name_retreat. simpl. congruence.
Qed.

(** X6. [readc] pops only units that are popped automatically and leaves
    every unit below the one it returns from untouched: the stack it leaves
    is the stack it found without some leading automatic units, with the
    top unit updated but keeping its name and kind; in particular the depth
    never grows. *)
Theorem readc_frame cap fs c fs' :
  readc cap fs = Ok (c, fs') ->
  (exists popped f f' rest,
     fs = popped ++ f :: rest /\ fs' = f' :: rest /\
     Forall (fun g => autopop g = true) popped /\
     autopop f' = autopop f /\ name f' = name f) /\
  (stream_depth fs' <= stream_depth fs)%nat.
Proof.
  intros Hr. unfold readc in Hr.
  destruct (readc_loop_frame _ _ _ _ _ Hr)
    as (popped & f & f' & rest & -> & -> & Hp & Ha & Hn).
  split; [exists popped, f, f', rest; auto |].
  unfold stream_depth, vec_len. rewrite length_app. simpl. lia.
Qed.

(** ** Stacks of units that are all popped automatically *)

Lemma readc_all_autopop cap fs c fs' :
  all_autopop fs -> readc cap fs = Ok (c, fs') ->
  c <> EOF /\ all_autopop fs'.
Proof.
  unfold all_autopop. intros Hall Hr. unfold readc in Hr.
  destruct (readc_loop_frame _ _ _ _ _ Hr)
    as (popped & f & f' & rest & -> & -> & Hp & Ha & Hn).
  apply Forall_app in Hall. destruct Hall as [_ Hall].
  inversion Hall as [| ? ? Hf Hrest]; subst.
  split.
  - intros ->. destruct (readc_loop_eof _ _ _ _ Hr) as (g & r & E & Hg).
    inversion E; subst. congruence.
  - constructor; [congruence | assumption].
Qed.

Lemma read_all_loop_all_autopop cap n : forall fs cs fs',
  all_autopop fs -> read_all_loop cap n fs <> Ok (cs, fs').
Proof.
  induction n as [| n IH]; intros fs cs fs' Hall; [discriminate |].
  cbn [read_all_loop]. unfold bind at 1.
  destruct (readc cap fs) as [[c fs1] | |] eqn:Hr; try discriminate.
  destruct (readc_all_autopop _ _ _ _ Hall Hr) as [Hc Hall1].
  apply Z.eqb_neq in Hc. rewrite Hc. unfold bind, ret.
  destruct (read_all_loop cap n fs1) as [[cs1 fs2] | |] eqn:E;
    try discriminate.
  exfalso. eapply IH; eassumption.
Qed.

(** X7. On a stack of units that are all popped automatically, as
    [insert_stream] alone builds it, [readc] never returns [EOF], and
    reading to exhaustion ends in the failed assertion of [vec_tail] on the
    emptied stack. *)
Theorem all_autopop_aborts cap fs :
  all_autopop fs ->
  (forall fs', readc cap fs <> Ok (EOF, fs')) /\
  read_all cap fs = Abort.
Proof.
  intros Hall. split.
  - intros fs' Hr. destruct (readc_all_autopop _ _ _ _ Hall Hr) as [Hc _].
    congruence.
  - pose proof (read_all_no_timeout cap fs) as Hnt.
    pose proof (read_all_loop_all_autopop cap (S (measure fs)) fs) as Hno.
    unfold read_all in *.
    destruct (read_all_loop cap (S (measure fs)) fs) as [[cs fs'] | |];
      [exfalso; eapply Hno; [exact Hall | reflexivity]
      | reflexivity | congruence].
Qed.

(** ** Carriage returns are never delivered *)

Lemma getf_no_cr f :
  ~ In CR (buf f) ->
  fst (getf f) <> CR /\ ~ In CR (buf (snd (getf f))).
Proof.
  destruct f as [fl pp nm ln col lst bf ap].
  unfold getf, fetch, readc_file, readc_string, advance, getc, at_eof.
  simpl.
  destruct bf as [| c0 bf];
    [destruct fl as [[| b0 [| b1 s]] |];
       [ | | | destruct pp as [| c [| c2 r]]] |];
    simpl; break_all; simpl; zbool; unfold NL, CR, EOF in *;
    intros; split; try tauto; try lia; try discriminate.
Qed.

(** X8. [readc] never returns a carriage return, as long as none is
    pushed back by the caller: a stack without a pushed-back carriage return
    stays so. *)
Theorem readc_no_cr cap fs c fs' :
  no_cr fs ->
  readc cap fs = Ok (c, fs') ->
  c <> CR /\ no_cr fs'.
Proof.
  unfold no_cr, readc. generalize (S (weight fs)). intros n.
  revert fs c fs'.
  induction n as [| n IH]; intros fs c fs' Hnc Hr; [discriminate |].
  destruct fs as [| f rest]; [discriminate |].
  rewrite readc_loop_cons in Hr. inversion Hnc as [| ? ? Hf Hrest]; subst.
  destruct (getf_no_cr f Hf) as [Hc1 Hf1].
  destruct (getf f) as [c1 f1]; cbn [fst snd] in *.
  destruct (c1 =? EOF).
  { destruct (autopop f); [eauto |]. inversion Hr; subst. auto. }
  destruct (negb (c1 =? BACKSLASH)).
  { inversion Hr; subst. auto. }
  destruct (getf_no_cr f1 Hf1) as [Hc2 Hf2].
  destruct (getf f1) as [c2 f2]; cbn [fst snd] in *.
  destruct (c2 =? NL); [eapply IH; [| exact Hr]; auto |].
  destruct (Z.lt_ge_cases c2 0) as [Hneg | Hpos].
  - rewrite unreadc_neg in Hr by assumption. inversion Hr; subst. auto.
  - rewrite unreadc_cons in Hr by assumption.
    destruct (buflen f2 <? cap)%nat; [| discriminate].
    inversion Hr; subst. split; [assumption |].
    constructor; [| assumption].
    unfold retreat. destruct (c2 =? NL); simpl; intros [H | H]; auto.
Qed.

(** ** Pushback within capacity *)

Lemma some_kept_top f f' rest :
  autopop f' = autopop f -> some_kept (f :: rest) -> some_kept (f' :: rest).
Proof.
  unfold some_kept. intros Ha H. inversion H as [? ? Hf | ? ? Hr]; subst.
  - left. congruence.
  - right. assumption.
Qed.

Lemma readc_loop_bounded cap n : forall fs,
  (0 < cap)%nat -> bounded cap fs -> some_kept fs ->
  match readc_loop cap n fs with
  | Ok (_, fs') => bounded cap fs' /\ some_kept fs'
  | Abort => False
  | Timeout => True
  end.
Proof.
  unfold bounded.
  induction n as [| n IH]; intros fs Hcap Hb Hk; [exact I |].
  destruct fs as [| f rest]; [inversion Hk |].
  rewrite readc_loop_cons. inversion Hb as [| ? ? Hf Hrest]; subst.
  pose proof (buflen_getf f) as Hb1. pose proof (autopop_getf f) as Ha1.
  destruct (getf f) as [c1 f1]; cbn [fst snd] in *.
  assert (Hf1 : (buflen f1 <= cap)%nat) by lia.
  destruct (c1 =? EOF).
  { destruct (autopop f) eqn:Hap.
    - apply IH; try assumption.
      inversion Hk as [? ? Hx | ? ? Hx]; subst; [congruence | assumption].
    - split; [constructor; assumption |]. left. congruence. }
  destruct (negb (c1 =? BACKSLASH)).
  { split; [constructor; assumption |].
    eapply some_kept_top; [| exact Hk]. assumption. }
  pose proof (buflen_getf f1) as Hb2. pose proof (autopop_getf f1) as Ha2.
  destruct (getf f1) as [c2 f2]; cbn [fst snd] in *.
  assert (Hk2 : some_kept (f2 :: rest))
    by (eapply some_kept_top; [| exact Hk]; congruence).
  destruct (c2 =? NL).
  { apply IH; try assumption. constructor; [lia | assumption]. }
  destruct (Z.lt_ge_cases c2 0) as [Hneg | Hpos].
  - rewrite unreadc_neg by assumption.
    split; [constructor; [lia | assumption] | assumption].
  - rewrite unreadc_cons by assumption.
    assert (Hlt : (buflen f2 <? cap)%nat = true) by (apply Nat.ltb_lt; lia).
    rewrite Hlt. split.
    + constructor; [| assumption].
      unfold retreat, buflen in *. destruct (c2 =? NL); simpl; lia.
    + eapply some_kept_top; [| exact Hk2].
      rewrite autopop_retreat. reflexivity.
Qed.

(** X9. With a [buf] of at least one element, on a stack whose units hold
    no more pushed-back characters than [buf] has elements and of which one
    at least is not popped automatically, [readc] fails no assertion: it
    returns, and leaves such a stack.  [unreadc], when it returns, leaves
    every unit within the capacity as well. *)
Theorem readc_within_capacity cap fs :
  (0 < cap)%nat ->
  bounded cap fs ->
  some_kept fs ->
  (exists c fs',
     readc cap fs = Ok (c, fs') /\ bounded cap fs' /\ some_kept fs') /\
  (forall c fs', unreadc cap c fs = Ok (tt, fs') -> bounded cap fs').
Proof.
  intros Hcap Hb Hk. split.
  - pose proof (readc_loop_bounded cap (S (weight fs)) fs Hcap Hb Hk) as H.
    pose proof (readc_no_timeout cap fs) as Hnt. unfold readc in *.
    destruct (readc_loop cap (S (weight fs)) fs) as [[c fs'] | |];
      [eauto | contradiction | congruence].
  - intros c fs' Hu. destruct (Z.lt_ge_cases c 0) as [Hneg | Hpos].
    + rewrite unreadc_neg in Hu by assumption. inversion Hu; subst. exact Hb.
    + destruct (unreadc_inv _ _ _ _ Hpos Hu) as (f & rest & -> & Hlt & ->).
      inversion Hb as [| ? ? Hf Hrest]; subst.
      constructor; [| assumption].
      unfold retreat, buflen in *. destruct (c =? NL); simpl; lia.
Qed.

(** ** [EOF] once, [EOF] again *)

Lemma readc_loop_eof_exhausted cap n : forall fs fs1,
  wf fs -> readc_loop cap n fs = Ok (EOF, fs1) ->
  exists f1 rest,
    fs1 = f1 :: rest /\ exhausted f1 = true /\ last f1 = EOF /\
    autopop f1 = false.
Proof.
  unfold wf.
  induction n as [| n IH]; intros fs fs1 Hwf Hr; [discriminate |].
  destruct fs as [| f rest]; [discriminate |].
  rewrite readc_loop_cons in Hr. inversion Hwf as [| ? ? Hf Hrest]; subst.
  pose proof (wf_file_getf f Hf) as Hf1.
  pose proof (getf_neg f Hf) as Hneg. pose proof (autopop_getf f) as Ha1.
  destruct (getf f) as [c1 f1]; cbn [fst snd] in *.
  destruct (c1 =? EOF) eqn:E1.
  { destruct (autopop f) eqn:Hap; [eauto |].
    inversion Hr; subst.
    destruct (Hneg ltac:(reflexivity)) as (_ & Hex & Hl).
    exists f1, rest. repeat split; try assumption; congruence. }
  destruct (negb (c1 =? BACKSLASH)) eqn:E2.
  { inversion Hr; subst. discriminate. }
  pose proof (wf_file_getf f1 Hf1) as Hf2.
  destruct (getf f1) as [c2 f2]; cbn [fst snd] in *.
  destruct (c2 =? NL); [eapply IH; [| exact Hr]; auto |].
  zbool. destruct (unreadc cap c2 (f2 :: rest)) as [[[] fs3] | |];
    try discriminate.
  inversion Hr; subst. discriminate.
Qed.

(** X10. [EOF] is final on a well-formed stack: after a call of [readc]
    that returned [EOF], the next call returns [EOF] again and changes
    nothing but the column of the top unit. *)
Theorem eof_again cap fs fs1 :
  wf fs ->
  readc cap fs = Ok (EOF, fs1) ->
  exists fs2, readc cap fs1 = Ok (EOF, fs2) /\ same_input fs2 fs1.
Proof.
  intros Hwf Hr. unfold readc in Hr.
  destruct (readc_loop_eof_exhausted _ _ _ _ Hwf Hr)
    as (f1 & rest & -> & Hex & Hl & Hap).
  rewrite readc_eq, (getf_exhausted f1 Hex), Hap.
  change (EOF =? EOF) with true. cbv iota.
  eexists; split; [reflexivity |].
  apply same_input_cons, pos_rel_fields. simpl. rewrite Hl. auto 10.
Qed.

(** ** Line and column through raw reads and unreads *)

Lemma getf_line f :
  name (snd (getf f)) = name f /\
  line (snd (getf f)) =
  (if fst (getf f) =? NL then inc (line f) else line f).
Proof.
  split; [apply name_getf |].
  destruct f as [fl pp nm ln col lst bf ap].
  unfold getf, fetch, readc_file, readc_string, advance, getc, inc.
  simpl.
  destruct bf as [| c0 bf];
    [destruct fl as [[| b0 [| b1 s]] |];
       [ | | | destruct pp as [| c [| c2 r]]] |];
    simpl; break_all; simpl; try reflexivity; try discriminate.
Qed.

Lemma getn_line : forall cs f rest fs1,
  getn (length cs) (f :: rest) = Ok (cs, fs1) ->
  exists f1, fs1 = f1 :: rest /\ name f1 = name f /\
             line f1 = Nat.iter (newlines cs) inc (line f).
Proof.
  induction cs as [| c cs IH]; intros f rest fs1 H.
  - inversion H; subst. exists f. auto.
  - cbn [length getn] in H. unfold bind at 1 in H. rewrite get_cons in H.
    unfold bind, ret in H.
    destruct (getn (length cs) (snd (getf f) :: rest)) as [[cs' gs] | |] eqn:E;
      try discriminate.
    inversion H; subst. clear H.
    destruct (getf_line f) as (Hn & Hln).
    destruct (IH _ _ _ E) as (f1 & -> & Hn1 & Hl1).
    exists f1. split; [reflexivity |]. split; [congruence |].
    rewrite Hl1, Hln. cbn [newlines]. unfold getf. cbn [fst].
    destruct (fst (fetch f) =? NL); [| reflexivity].
    symmetry. apply Nat.iter_succ_r.
Qed.

Lemma unread_list_rev_place cap : forall cs f rest fs2,
  Forall nonneg cs ->
  unread_list cap (rev cs) (f :: rest) = Ok (tt, fs2) ->
  exists f2, fs2 = f2 :: rest /\ name f2 = name f /\
    line f2 = Nat.iter (newlines cs) dec (line f) /\
    column f2 =
    (if existsb (Z.eqb NL) cs then Nat.iter (before_nl cs) dec 0
     else Nat.iter (length cs) dec (column f)).
Proof.
  induction cs as [| c cs IH]; intros f rest fs2 Hnn Hu.
  - inversion Hu; subst. exists f. auto.
  - pose proof (Forall_inv Hnn) as Hc. unfold nonneg in Hc.
    pose proof (Forall_inv_tail Hnn) as Hnn'.
    cbn [rev] in Hu. rewrite unread_list_app in Hu. unfold bind in Hu.
    destruct (unread_list cap (rev cs) (f :: rest)) as [[[] mid] | |] eqn:Hmid;
      try discriminate.
    destruct (IH _ _ _ Hnn' Hmid) as (fm & -> & Hn & Hl & Hcol).
    cbn [unread_list] in Hu. unfold bind, ret in Hu.
    rewrite unreadc_cons in Hu by assumption.
    destruct (buflen fm <? cap)%nat; [| discriminate].
    inversion Hu; subst fs2. clear Hu.
    eexists; split; [reflexivity |].
    cbn [existsb before_nl newlines length]. rewrite (Z.eqb_sym NL c).
    unfold retreat. destruct (c =? NL) eqn:E; cbn [orb]; simpl.
    + repeat split; [assumption | rewrite Hl; reflexivity].
    + repeat split; [assumption | assumption |].
      rewrite Hcol. destruct (existsb (Z.eqb NL) cs); reflexivity.
Qed.

(** X11. Unreading, in reverse order, the characters that raw reads have
    delivered restores the line of the top unit.  It restores the column
    only if none of the characters is a newline; otherwise the column ends
    up at 0 minus the number of characters before the first newline. *)
Theorem unread_raw_position cap cs f rest fs1 fs2 :
  int_range (line f) ->
  int_range (column f) ->
  getn (length cs) (f :: rest) = Ok (cs, fs1) ->
  Forall nonneg cs ->
  unread_list cap (rev cs) fs1 = Ok (tt, fs2) ->
  exists f2,
    fs2 = f2 :: rest /\ name f2 = name f /\
    line f2 = line f /\
    column f2 =
    (if existsb (Z.eqb NL) cs then Nat.iter (before_nl cs) dec 0
     else column f).
Proof.
  intros Hl Hc Hg Hnn Hu.
  destruct (getn_line _ _ _ _ Hg) as (f1 & -> & Hn1 & Hl1).
  destruct (unread_list_rev_place _ _ _ _ _ Hnn Hu)
    as (f2 & -> & Hn2 & Hl2 & Hc2).
  exists f2. split; [reflexivity |]. split; [congruence |]. split.
  - rewrite Hl2, Hl1. apply iter_dec_inc; assumption.
  - rewrite Hc2. destruct (existsb (Z.eqb NL) cs) eqn:E; [reflexivity |].
    assert (Hnl : Forall (fun c => c <> NL) cs).
    { apply Forall_forall. intros x Hx Heq.
      assert (existsb (Z.eqb NL) cs = true); [| congruence].
      apply existsb_exists. exists x. split; [assumption |].
      apply Z.eqb_eq. congruence. }
    destruct (getn_place _ _ _ _ Hg Hnl) as (f1' & E1 & _ & _ & Hc1).
    inversion E1; subst f1'. rewrite Hc1. apply iter_dec_inc; assumption.
Qed.

(** ** The raw reader, call after call *)

(** X12. Successive calls of [get] on a well-formed unit deliver its
    pending characters (what is pushed back, then the backing stream with
    carriage returns canonicalised, closed by a newline unless it ends in
    one) and from then on [EOF], as often as it is called. *)
Theorem getn_spec n : forall f rest,
  wf_file f ->
  exists f1,
    getn n (f :: rest) =
    Ok (map (fun i => nth i (pending f) EOF) (seq 0 n), f1 :: rest) /\
    wf_file f1.
Proof.
  induction n as [| n IH]; intros f rest Hwf.
  - exists f. split; [reflexivity | assumption].
  - cbn [getn]. unfold bind at 1. rewrite get_cons.
    pose proof (getf_pending f Hwf) as Hg.
    destruct (IH (snd (getf f)) rest (wf_file_getf f Hwf))
      as (f1 & Hn & Hwf1).
    exists f1. split; [| assumption].
    unfold bind, ret. rewrite Hn. cbn [seq map].
    rewrite <- seq_shift, map_map.
    destruct (pending f) as [| c t].
    + destruct Hg as [-> ->]. f_equal. f_equal. f_equal.
      apply map_ext. intros i. destruct i; reflexivity.
    + destruct Hg as [-> ->]. reflexivity.
Qed.

(** * Instances *)

(** C1, amended, at the string a, b, c: two reads, two unreads. *)
Lemma unread_read_again_witness :
  let fs := [make_file_string [chr "a"; chr "b"; chr "c"] false] in
  let cs := [chr "a"; chr "b"] in
  let fs1 := [mkFile None [chr "c"] None 1 2 (chr "b") [] false] in
  let fs2 :=
    [mkFile None [chr "c"] None 1 0 (chr "b") [chr "a"; chr "b"] false] in
  wf fs /\
  readn 3 (length cs) fs = Ok (cs, fs1) /\
  Forall nonneg cs /\
  splice_free cs = true /\
  unread_list 3 (rev cs) fs1 = Ok (tt, fs2) /\
  (exists fs', readn 3 (length cs) fs2 = Ok (cs, fs') /\ same_input fs' fs1) /\
  chars (input_position fs2) = chars (input_position fs).
Proof.
  intros fs cs fs1 fs2.
  assert (Hwf : wf fs).
  { repeat constructor; unfold nonneg; vm_compute; discriminate. }
  assert (Hnn : Forall nonneg cs).
  { repeat constructor; unfold nonneg; vm_compute; discriminate. }
  destruct (unread_read_again 3 fs cs fs1 fs2 Hwf eq_refl Hnn eq_refl eq_refl)
    as [H1 H2].
  repeat (split; [first [assumption | reflexivity] |]).
  apply H2.
  - repeat constructor; unfold int_range; simpl; lia.
  - reflexivity.
  - repeat constructor; vm_compute; discriminate.
Defined.

(** C2 at a string with "\r\n", a lone '\r' and a backslash. *)
Lemma crlf_presubstitution_witness :
  let s := [chr "a"; CR; NL; chr "b"; CR; BACKSLASH; CR; NL; chr "c"] in
  (0 < 3)%nat /\
  read_string 3 s = read_string 3 (crlf s) /\
  exists cs, read_string 3 s = Ok cs.
Proof.
  intros s. destruct (crlf_presubstitution 3 s) as (H1 & _ & _ & H3).
  assert (Hcap : (0 < 3)%nat) by lia.
  split; [exact Hcap |]. split; [exact H1 | exact (H3 Hcap)].
Defined.

(** X13 at the string a, newline, b. *)
Lemma eof_regularization_witness :
  let s := [chr "a"; NL; chr "b"] in
  List.last s 0 <> NL /\
  List.last s 0 <> EOF /\
  read_string 3 s = read_string 3 (s ++ [NL]) /\
  read_string 3 s <> Timeout /\
  ((0 < 3)%nat -> exists cs, read_string 3 s = Ok cs).
Proof.
  intros s.
  assert (H1 : List.last s 0 <> NL) by (vm_compute; discriminate).
  assert (H2 : List.last s 0 <> EOF) by (vm_compute; discriminate).
  split; [exact H1 |]. split; [exact H2 |].
  exact (eof_regularization 3 s H1 H2).
Defined.

(** C4 at an exhausted included file above a file that holds an x. *)
Lemma autopop_transparent_witness :
  let b := mkFile (Some []) [] (Some "inc.h"%string) 3 0 NL [] true in
  let a := mkFile (Some ["x"%byte]) [] (Some "main.c"%string) 7 0 NL [] false in
  autopop b = true /\
  autopop a = false /\
  exhausted b = true /\
  readc 3 [b; a] = readc 3 [a] /\
  readc 3 [b; a] =
  Ok (chr "x", [mkFile (Some []) [] (Some "main.c"%string) 7 1 (chr "x") []
                  false]).
Proof.
  intros b a.
  destruct (autopop_transparent 3 b a [] eq_refl eq_refl eq_refl)
    as (H1 & _ & _).
  split; [reflexivity |]. split; [reflexivity |]. split; [reflexivity |].
  split; [exact H1 |]. rewrite H1. reflexivity.
Defined.

(** C6 at a unit with nothing pushed back, for capacities 3 and 0. *)
Lemma unreadc_capacity_witness :
  let f := mkFile None [chr "b"] None 1 1 (chr "a") [] false in
  0 <= chr "a" /\
  (buflen f < 3)%nat /\
  (exists f',
     unreadc 3 (chr "a") [f] = Ok (tt, [f']) /\
     buf f' = [chr "a"] /\ buflen f' = 1%nat) /\
  unreadc 0 (chr "a") [f] = Abort.
Proof.
  intros f.
  assert (Hc : 0 <= chr "a") by (vm_compute; discriminate).
  assert (Hn : (buflen f < 3)%nat) by (vm_compute; lia).
  destruct (unreadc_capacity 3 (chr "a") f [] Hc) as [H1 _].
  destruct (unreadc_capacity 0 (chr "a") f [] Hc) as [_ H2].
  destruct (H1 Hn) as (f' & Hu & Hb & Hl & _).
  split; [exact Hc |]. split; [exact Hn |]. split.
  - exists f'. split; [exact Hu |]. split; [exact Hb | exact Hl].
  - apply H2. vm_compute. lia.
Defined.

(** C7 at [EOF], on a stack of one unit and on the empty stack. *)
Lemma unreadc_eof_noop_witness :
  let fs := [make_file_string [chr "a"] false] in
  EOF < 0 /\ unreadc 3 EOF fs = Ok (tt, fs) /\ unreadc 3 EOF [] = Ok (tt, []).
Proof.
  intros fs.
  assert (Hc : EOF < 0) by reflexivity.
  split; [exact Hc |].
  split; [exact (unreadc_eof_noop 3 EOF fs Hc)
         | exact (unreadc_eof_noop 3 EOF [] Hc)].
Defined.

(** C9 at an exhausted string-backed unit on line 2, column 0. *)
Lemma eof_read_advances_column_witness :
  let f := mkFile None [] None 2 0 NL [] false in
  exhausted f = true /\
  autopop f = false /\
  exists f',
    readc 3 [f] = Ok (EOF, [f']) /\
    column f' = 1 /\
    chars (input_position [f']) <> chars (input_position [f]).
Proof.
  intros f.
  destruct (eof_read_advances_column 3 f [] eq_refl eq_refl)
    as (f' & Hr & Hc & _ & _ & Hp & _).
  split; [reflexivity |]. split; [reflexivity |].
  exists f'. split; [exact Hr |]. split; [exact Hc | exact Hp].
Defined.

(** C10 at the string a, b, backslash. *)
Lemma trailing_backslash_witness :
  let s := [chr "a"; chr "b"] in
  Forall plain s /\
  read_string 3 (s ++ [BACKSLASH]) = Ok [chr "a"; chr "b"].
Proof.
  intros s.
  assert (Hs : Forall plain s).
  { repeat constructor; vm_compute; discriminate. }
  destruct (trailing_backslash 3 s) as (_ & H2 & _).
  split; [exact Hs | exact (H2 Hs)].
Defined.

Ltac nonneg_list :=
  repeat constructor; unfold nonneg; vm_compute; discriminate.

(** X1 at a string with "\r\n", a splice and a NUL. *)
Lemma read_string_spec_witness :
  let s := [chr "a"; CR; NL; BACKSLASH; NL; chr "b"; 0; chr "c"] in
  (0 < 3)%nat /\
  Forall nonneg s /\
  read_string 3 s = Ok [chr "a"; NL; chr "b"; NL].
Proof.
  intros s.
  assert (Hcap : (0 < 3)%nat) by lia.
  assert (Hs : Forall nonneg s) by nonneg_list.
  split; [exact Hcap |]. split; [exact Hs |].
  exact (read_string_spec 3 s Hcap Hs).
Defined.

(** X2 at a file with a lone '\r', a splice over "\r\n" and a NUL byte. *)
Lemma read_file_spec_witness :
  let s := [x61; x0d; x5c; x0d; x0a; x00; x62] in
  (0 < 3)%nat /\
  read_file 3 s (Some "main.c"%string) = Ok [chr "a"; NL; 0; chr "b"; NL].
Proof.
  intros s.
  assert (Hcap : (0 < 3)%nat) by lia.
  split; [exact Hcap |].
  exact (read_file_spec 3 s (Some "main.c"%string) Hcap).
Defined.

(** X3 at the file a inserted above the string x. *)
Lemma insert_stream_spec_witness :
  let fs := [make_file_string [chr "x"] false] in
  (0 < 3)%nat /\
  chars ((insert_stream [x61] (Some "inc.h"%string) ;;; read_all 3) fs) =
  Ok [chr "a"; NL; chr "x"; NL].
Proof.
  intros fs.
  assert (Hcap : (0 < 3)%nat) by lia.
  split; [exact Hcap |].
  rewrite (insert_stream_spec 3 [x61] (Some "inc.h"%string) fs Hcap).
  reflexivity.
Defined.

(** X4 at the string a, backslash, b pushed above a half-read file. *)
Lemma rescan_string_witness :
  let s := [chr "a"; BACKSLASH; chr "b"] in
  let fs := [mkFile (Some [x78]) [] (Some "main.c"%string) 4 2 (chr "y")
               [chr "z"] false] in
  (0 < 3)%nat /\
  Forall nonneg s /\
  (push_stream_string s ;;;
   cs <- read_all 3 ;;
   pop_stream ;;;
   ret cs) fs =
  Ok ([chr "a"; BACKSLASH; chr "b"; NL], fs).
Proof.
  intros s fs.
  assert (Hcap : (0 < 3)%nat) by lia.
  assert (Hs : Forall nonneg s) by nonneg_list.
  split; [exact Hcap |]. split; [exact Hs |].
  exact (rescan_string 3 s fs Hcap Hs).
Defined.

(** X5 at the newline that ends the first line of a string. *)
Lemma peek_exact_witness :
  let fs := [mkFile None [NL; chr "b"] None 1 1 (chr "a") [] false] in
  let fs1 := [mkFile None [chr "b"] None 2 0 NL [] false] in
  let fs2 := [mkFile None [chr "b"] None 1 0 NL [NL] false] in
  readc 3 fs = Ok (NL, fs1) /\
  0 <= NL /\
  NL <> BACKSLASH /\
  unreadc 3 NL fs1 = Ok (tt, fs2) /\
  readc 3 fs2 = Ok (NL, fs1).
Proof.
  intros fs fs1 fs2.
  assert (H1 : readc 3 fs = Ok (NL, fs1)) by reflexivity.
  assert (H2 : 0 <= NL) by (vm_compute; discriminate).
  assert (H3 : NL <> BACKSLASH) by discriminate.
  assert (H4 : unreadc 3 NL fs1 = Ok (tt, fs2)) by reflexivity.
  repeat (split; [assumption |]).
  exact (peek_exact 3 fs NL fs1 fs2 H1 H2 H3 H4).
Defined.

(** X6 at an exhausted included file above a file and a string. *)
Lemma readc_frame_witness :
  let b := mkFile (Some []) [] (Some "inc.h"%string) 3 0 NL [] true in
  let a := mkFile (Some [x78]) [] (Some "main.c"%string) 7 0 NL [] false in
  let a' := mkFile (Some []) [] (Some "main.c"%string) 7 1 (chr "x") []
              false in
  let z := make_file_string [chr "z"] false in
  readc 3 [b; a; z] = Ok (chr "x", [a'; z]) /\
  (exists popped f f' rest,
     [b; a; z] = popped ++ f :: rest /\ [a'; z] = f' :: rest /\
     Forall (fun g => autopop g = true) popped /\
     autopop f' = autopop f /\ name f' = name f) /\
  (stream_depth [a'; z] <= stream_depth [b; a; z])%nat.
Proof.
  intros b a a' z.
  assert (H : readc 3 [b; a; z] = Ok (chr "x", [a'; z])) by reflexivity.
  split; [exact H |].
  exact (readc_frame 3 [b; a; z] (chr "x") [a'; z] H).
Defined.

(** X7 at a single inserted file. *)
Lemma all_autopop_aborts_witness :
  let fs := [make_file [x61] (Some "inc.h"%string) true] in
  all_autopop fs /\
  (forall fs', readc 3 fs <> Ok (EOF, fs')) /\
  read_all 3 fs = Abort.
Proof.
  intros fs.
  assert (H : all_autopop fs) by (repeat constructor).
  split; [exact H |].
  exact (all_autopop_aborts 3 fs H).
Defined.

(** X8 at a file that starts with a lone '\r'. *)
Lemma readc_no_cr_witness :
  let fs := [make_file [x0d; x61] None false] in
  let fs' := [mkFile (Some [x61]) [] None 2 0 NL [] false] in
  no_cr fs /\
  readc 3 fs = Ok (NL, fs') /\
  NL <> CR /\ no_cr fs'.
Proof.
  intros fs fs'.
  assert (H1 : no_cr fs) by (repeat constructor; simpl; tauto).
  assert (H2 : readc 3 fs = Ok (NL, fs')) by reflexivity.
  split; [exact H1 |]. split; [exact H2 |].
  exact (readc_no_cr 3 fs NL fs' H1 H2).
Defined.

(** X9 at an exhausted included file above a string that starts with a
    backslash. *)
Lemma readc_within_capacity_witness :
  let b := mkFile (Some []) [] (Some "inc.h"%string) 3 0 NL [] true in
  let fs := [b; make_file_string [BACKSLASH; chr "a"] false] in
  (0 < 1)%nat /\
  bounded 1 fs /\
  some_kept fs /\
  exists c fs', readc 1 fs = Ok (c, fs') /\ bounded 1 fs' /\ some_kept fs'.
Proof.
  intros b fs.
  assert (H1 : (0 < 1)%nat) by lia.
  assert (H2 : bounded 1 fs) by (repeat constructor; unfold buflen; simpl; lia).
  assert (H3 : some_kept fs) by (right; left; reflexivity).
  split; [exact H1 |]. split; [exact H2 |]. split; [exact H3 |].
  exact (proj1 (readc_within_capacity 1 fs H1 H2 H3)).
Defined.

(** X10 at a string read to its end. *)
Lemma eof_again_witness :
  let fs := [mkFile None [] None 2 0 NL [] false] in
  let fs1 := [mkFile None [] None 2 1 EOF [] false] in
  wf fs /\
  readc 3 fs = Ok (EOF, fs1) /\
  exists fs2, readc 3 fs1 = Ok (EOF, fs2) /\ same_input fs2 fs1.
Proof.
  intros fs fs1.
  assert (H1 : wf fs) by (repeat constructor).
  assert (H2 : readc 3 fs = Ok (EOF, fs1)) by reflexivity.
  split; [exact H1 |]. split; [exact H2 |].
  exact (eof_again 3 fs fs1 H1 H2).
Defined.

(** X11 at the raw characters a, newline, b. *)
Lemma unread_raw_position_witness :
  let f := make_file_string [chr "a"; NL; chr "b"] false in
  let cs := [chr "a"; NL; chr "b"] in
  let fs1 := [mkFile None [] None 2 1 (chr "b") [] false] in
  let fs2 := [mkFile None [] None 1 (-1) (chr "b") cs false] in
  int_range (line f) /\
  int_range (column f) /\
  getn (length cs) [f] = Ok (cs, fs1) /\
  Forall nonneg cs /\
  unread_list 3 (rev cs) fs1 = Ok (tt, fs2) /\
  exists f2,
    fs2 = [f2] /\ name f2 = name f /\ line f2 = 1 /\ column f2 = -1.
Proof.
  intros f cs fs1 fs2.
  assert (H1 : int_range (line f)) by (unfold int_range; simpl; lia).
  assert (H2 : int_range (column f)) by (unfold int_range; simpl; lia).
  assert (H3 : getn (length cs) [f] = Ok (cs, fs1)) by reflexivity.
  assert (H4 : Forall nonneg cs) by nonneg_list.
  assert (H5 : unread_list 3 (rev cs) fs1 = Ok (tt, fs2)) by reflexivity.
  repeat (split; [assumption |]).
  exact (unread_raw_position 3 cs f [] fs1 fs2 H1 H2 H3 H4 H5).
Defined.

(** X12 at a unit with a pushed-back character and the string "\r\n", b:
    five raw reads. *)
Lemma getn_spec_witness :
  let f := mkFile None [CR; NL; chr "b"] None 1 0 0 [chr "a"] false in
  wf_file f /\
  exists f1,
    getn 6 [f] = Ok ([chr "a"; NL; chr "b"; NL; EOF; EOF], [f1]) /\
    wf_file f1.
Proof.
  intros f.
  assert (H : wf_file f) by (split; nonneg_list).
  split; [exact H |].
  exact (getn_spec 6 f [] H).
Defined.
